(** * Bucket state store of the rate limiter, and the HTTP instrumentation
    decorator: a shallow embedding of [ratelimits/source.go] and of
    [measured_http].

    The store is a Go map guarded by one [sync.RWMutex].  Every method is
    written below as a small program over atomic actions (lock, unlock, map
    assignment, map lookup, map deletion).  The same program is given two
    readings: run to completion by one caller ([run]), and interleaved with
    the programs of other goroutines ([step]). *)

From stdpp Require Import gmap strings list fin_maps.
From Stdlib Require Import ZArith Lia DecimalString.

Set Default Proof Using "Type".

(** ** Go values the two packages rely on *)

(** A Go [error] value.  [errors.New] and [fmt.Errorf] without a wrapping verb
    build an [errorString]; [context.DeadlineExceeded] is a value of its own
    type.  The interface value [nil] is [None] of [option error]. *)
Inductive error : Type :=
| errorString (s : string)
| deadlineExceededError.

#[global] Instance error_eq_dec : EqDecision error.
Proof. solve_decision. Defined.

(** Every Go type has a zero value: what a variable holds before it is
    assigned, and what a map lookup yields for a missing key. *)
Class ZeroValue (A : Type) : Type := zeroValue : A.

(** A concrete clock reading for examples: nanoseconds since the Unix epoch,
    zero at the epoch. *)
#[global] Instance unix_nanos_zero : ZeroValue Z := 0%Z.

Module context.

Definition Canceled : error := errorString "context canceled".
Definition DeadlineExceeded : error := deadlineExceededError.

(** What a callee can observe of a [context.Context]: the result of its
    [Err] method, [nil] until the context is cancelled or expires. *)
Record Context : Type := mkContext { Err : option error }.

Definition Background : Context := mkContext None.
Definition WithCancelled : Context := mkContext (Some Canceled).
Definition WithExpiredDeadline : Context := mkContext (Some DeadlineExceeded).

End context.

Module ratelimits.

(** [ErrBucketNotFound = fmt.Errorf("bucket not found")], one package-level
    value. *)
Definition ErrBucketNotFound : error := errorString "bucket not found".

(** State of a [sync.RWMutex]: whether a writer holds it, and how many
    readers hold it.  [Lock] waits until nobody holds it, [RLock] until no
    writer holds it.  (The Go runtime also makes a reader wait while a writer
    is waiting; the state below lets that reader in, so it allows every
    interleaving the runtime allows.) *)
Record RWMutex : Type := mkRWMutex { writer : bool; readers : nat }.

Section Store.

(** [time.Time] is opaque to the store; its zero value is the literal
    [time.Time{}]. *)
Context {Time : Type} `{!ZeroValue Time}.

(** [type inmem struct { sync.RWMutex; m map[string]time.Time }] *)
Record inmem : Type := mkInmem { mu : RWMutex; m : gmap string Time }.

(** [newInmem]: a zero mutex and an empty map. *)
Definition newInmem : inmem := mkInmem (mkRWMutex false 0) ∅.

(** *** Atomic actions on the store *)

Inductive action : Type -> Type :=
| ALock : action unit
| AUnlock : action unit
| ARLock : action unit
| ARUnlock : action unit
| AMapAssign (k : string) (v : Time) : action unit
| AMapAccess2 (k : string) : action (Time * bool)
| AMapDelete (k : string) : action unit.

(** What an action does when it is attempted: it returns a value and a new
    store, or the goroutine cannot proceed yet ([Blocks]), or the Go runtime
    aborts the process ([Fatal], unlocking a mutex that is not locked). *)
Inductive outcome (A : Type) : Type :=
| Returns (a : A) (s : inmem)
| Blocks
| Fatal (msg : string).
Arguments Returns {A} a s.
Arguments Blocks {A}.
Arguments Fatal {A} msg.

Definition perform {B : Type} (a : action B) (s : inmem) : outcome B :=
  match a in action B return outcome B with
  | ALock =>
      if writer (mu s) then Blocks
      else match readers (mu s) with
           | O => Returns tt (mkInmem (mkRWMutex true 0) (m s))
           | S _ => Blocks
           end
  | AUnlock =>
      if writer (mu s)
      then Returns tt (mkInmem (mkRWMutex false (readers (mu s))) (m s))
      else Fatal "sync: Unlock of unlocked RWMutex"
  | ARLock =>
      if writer (mu s) then Blocks
      else Returns tt (mkInmem (mkRWMutex false (S (readers (mu s)))) (m s))
  | ARUnlock =>
      match readers (mu s) with
      | O => Fatal "sync: RUnlock of unlocked RWMutex"
      | S n => Returns tt (mkInmem (mkRWMutex (writer (mu s)) n) (m s))
      end
  | AMapAssign k v => Returns tt (mkInmem (mu s) (<[k := v]> (m s)))
  | AMapAccess2 k =>
      match m s !! k with
      | Some v => Returns (v, true) s
      | None => Returns (zeroValue, false) s
      end
  | AMapDelete k => Returns tt (mkInmem (mu s) (delete k (m s)))
  end.

(** *** Programs over the actions *)

Inductive prog (A : Type) : Type :=
| Ret (a : A)
| Do {B : Type} (a : action B) (k : B -> prog A).
Arguments Ret {A} a.
Arguments Do {A B} a k.

Fixpoint bind {A B : Type} (f : A -> prog B) (p : prog A) : prog B :=
  match p with
  | Ret a => f a
  | Do a k => Do a (fun b => bind f (k b))
  end.

#[export] Instance prog_ret : MRet prog := fun A a => Ret a.
#[export] Instance prog_bind : MBind prog := fun A B f p => bind f p.

Definition act {B : Type} (a : action B) : prog B := Do a Ret.

Definition Lock : prog unit := act ALock.
Definition Unlock : prog unit := act AUnlock.
Definition RLock : prog unit := act ARLock.
Definition RUnlock : prog unit := act ARUnlock.
Definition mapassign (k : string) (v : Time) : prog unit := act (AMapAssign k v).
Definition mapaccess2 (k : string) : prog (Time * bool) := act (AMapAccess2 k).
Definition mapdelete (k : string) : prog unit := act (AMapDelete k).

(** [defer f(); body]: the body computes the values to return, then the
    deferred call runs, then the function returns those values. *)
Definition defer {A : Type} (deferred : prog unit) (body : prog A) : prog A :=
  r ← body; deferred;; mret r.

(** *** The three methods of [inmem] *)

Definition inmem_Set (_ : context.Context) (bucketKey : string) (tat : Time)
  : prog (option error) :=
  Lock;;
  defer Unlock (
    mapassign bucketKey tat;;
    mret None).

Definition inmem_Get (_ : context.Context) (bucketKey : string)
  : prog (Time * option error) :=
  RLock;;
  defer RUnlock (
    '(tat, ok) ← mapaccess2 bucketKey;
    if negb ok then mret (zeroValue, Some ErrBucketNotFound)
    else mret (tat, None)).

Definition inmem_Delete (_ : context.Context) (bucketKey : string)
  : prog (option error) :=
  Lock;;
  defer Unlock (
    mapdelete bucketKey;;
    mret None).

(** *** One caller at a time: a program run to completion *)

Fixpoint run {A : Type} (p : prog A) (s : inmem) : outcome A :=
  match p with
  | Ret a => Returns a s
  | Do a k =>
      match perform a s with
      | Returns b s' => run (k b) s'
      | Blocks => Blocks
      | Fatal msg => Fatal msg
      end
  end.

(** No goroutine holds the lock. *)
Definition unlocked (s : inmem) : Prop := mu s = mkRWMutex false 0.

(** *** Calls and what they return *)

Inductive call : Type :=
| CallSet (ctx : context.Context) (bucketKey : string) (tat : Time)
| CallGet (ctx : context.Context) (bucketKey : string)
| CallDelete (ctx : context.Context) (bucketKey : string).

(** The values a call hands back: [error] for [Set] and [Delete],
    [(time.Time, error)] for [Get]. *)
Inductive retval : Type :=
| RetErr (err : option error)
| RetTat (tat : Time) (err : option error).

Definition invoke (c : call) : prog retval :=
  match c with
  | CallSet ctx k t => err ← inmem_Set ctx k t; mret (RetErr err)
  | CallGet ctx k => '(tat, err) ← inmem_Get ctx k; mret (RetTat tat err)
  | CallDelete ctx k => err ← inmem_Delete ctx k; mret (RetErr err)
  end.

(** A caller that makes the calls of [h] one after the other and collects
    what they return. *)
Fixpoint invoke_all (h : list call) : prog (list retval) :=
  match h with
  | [] => mret []
  | c :: h' => r ← invoke c; rs ← invoke_all h'; mret (r :: rs)
  end.

(** [c] is a [Set] on key [k]. *)
Definition sets_key (k : string) (c : call) : bool :=
  match c with
  | CallSet _ k' _ => bool_decide (k' = k)
  | _ => false
  end.

(** No call of [h] is a [Set] on key [k]. *)
Definition never_sets (k : string) (h : list call) : bool :=
  forallb (fun c => negb (sets_key k c)) h.

(** *** Many callers: goroutines interleaved action by action *)

(** The goroutines share one store and take turns, one action at a time.
    Taking the map actions one at a time is sound as long as no goroutine
    touches the map while another writes it ([exclusive] below): a Go program
    without data races behaves as some interleaving of its goroutines.
    [Aborted] is the process after a fatal runtime error. *)
Inductive state (A : Type) : Type :=
| Running (s : inmem) (ts : list (prog A))
| Aborted (msg : string).
Arguments Running {A} s ts.
Arguments Aborted {A} msg.

(** Goroutine [i] attempts its next action.  [None]: it has returned, or it
    is blocked on the lock, or there is no such goroutine. *)
Definition sched {A : Type} (i : nat) (σ : state A) : option (state A) :=
  match σ with
  | Aborted _ => None
  | Running s ts =>
      match ts !! i with
      | Some (Do a k) =>
          match perform a s with
          | Returns b s' => Some (Running s' (<[i := k b]> ts))
          | Blocks => None
          | Fatal msg => Some (Aborted msg)
          end
      | _ => None
      end
  end.

Definition step {A : Type} (σ σ' : state A) : Prop :=
  ∃ i, sched i σ = Some σ'.

(** The goroutines named by [sch] each take one step, in that order. *)
Fixpoint run_schedule {A : Type} (sch : list nat) (σ : state A)
  : option (state A) :=
  match sch with
  | [] => Some σ
  | i :: sch' =>
      match sched i σ with
      | Some σ' => run_schedule sch' σ'
      | None => None
      end
  end.

(** One goroutine per call of [cs], none of them started yet. *)
Definition spawn (s : inmem) (cs : list call) : state retval :=
  Running s (invoke <$> cs).

(** Goroutine [p] has returned [r]. *)
Definition returned {A : Type} (p : prog A) : option A :=
  match p with
  | Ret r => Some r
  | Do _ _ => None
  end.

(** Every goroutine has returned, with the values [rs], leaving store [s]. *)
Definition finished {A : Type} (σ : state A) (s : inmem) (rs : list A) : Prop :=
  ∃ ts, σ = Running s ts ∧ mapM returned ts = Some rs.

(** The goroutine holds the lock: it has locked and not yet unlocked.  For the
    programs of this package that is the case exactly when the next action is
    a map access or an unlock. *)
Definition in_critical_section {A : Type} (p : prog A) : bool :=
  match p with
  | Do (AMapAssign _ _) _ | Do (AMapAccess2 _) _ | Do (AMapDelete _) _
  | Do AUnlock _ | Do ARUnlock _ => true
  | _ => false
  end.

(** The goroutine holds the lock for writing. *)
Definition in_write_section {A : Type} (p : prog A) : bool :=
  match p with
  | Do (AMapAssign _ _) _ | Do (AMapDelete _) _ | Do AUnlock _ => true
  | _ => false
  end.

(** *** Where a goroutine is in its call *)

(** A goroutine making one call has not taken the lock yet ([Idle]), or holds
    it and has not touched the map yet ([Holding]), or has touched the map,
    knows what it will return and still holds the lock ([Releasing]), or has
    returned ([Returned]). *)
Inductive phase : Type :=
| Idle
| Holding
| Releasing (r : retval)
| Returned (r : retval).

(** What is left of a program once its first action, a lock, has been taken. *)
Definition resume {A : Type} (p : prog A) : prog A :=
  match p with
  | Ret _ => p
  | Do a k =>
      match a in action B return (B -> prog A) -> prog A with
      | ALock | ARLock => fun k => k tt
      | _ => fun _ => p
      end k
  end.

Definition is_Get (c : call) : bool :=
  match c with
  | CallGet _ _ => true
  | _ => false
  end.

Definition unlock_of (c : call) : action unit :=
  if is_Get c then ARUnlock else AUnlock.

(** The program of a goroutine that is at [ph] in call [c]. *)
Definition at_phase (c : call) (ph : phase) : prog retval :=
  match ph with
  | Idle => invoke c
  | Holding => resume (invoke c)
  | Releasing r => Do (unlock_of c) (fun _ => Ret r)
  | Returned r => Ret r
  end.

Definition in_cs (ph : phase) : bool :=
  match ph with
  | Holding | Releasing _ => true
  | _ => false
  end.

Definition result_of (ph : phase) : option retval :=
  match ph with
  | Releasing r | Returned r => Some r
  | _ => None
  end.

(** Actions the goroutine has still to take. *)
Definition steps_left (ph : phase) : nat :=
  match ph with
  | Idle => 3
  | Holding => 2
  | Releasing _ => 1
  | Returned _ => 0
  end.

(** Goroutines that hold the lock for writing, and for reading. *)
Definition write_holders (ths : list (call * phase)) : nat :=
  sum_list_with (fun th => if negb (is_Get th.1) && in_cs th.2 then 1 else 0) ths.

Definition read_holders (ths : list (call * phase)) : nat :=
  sum_list_with (fun th => if is_Get th.1 && in_cs th.2 then 1 else 0) ths.

(** The mutex records its holders, and a writer holds it alone. *)
Definition lock_inv (s : inmem) (ths : list (call * phase)) : Prop :=
  mu s = mkRWMutex (bool_decide (write_holders ths = 1)) (read_holders ths) ∧
  write_holders ths ≤ 1 ∧
  (write_holders ths = 1 -> read_holders ths = 0).

(** The call of a goroutine that is past its map access, with its result. *)
Definition entry (th : call * phase) : option (call * retval) :=
  r ← result_of th.2; Some (th.1, r).

(** [lg] lists the calls that are past their map access, each with its result,
    in an order in which a single caller, starting from [s0], gets those
    results and reaches the map that [s] holds now. *)
Definition linearized (s0 s : inmem) (ths : list (call * phase))
    (lg : list (call * retval)) : Prop :=
  lg ≡ₚ omap entry ths ∧
  ∃ s1, run (invoke_all lg.*1) s0 = Returns lg.*2 s1 ∧ unlocked s1 ∧ m s1 = m s.

(** What holds of every state the goroutines of [cs], started on [s0], reach
    in [n] steps. *)
Definition reach_inv (cs : list call) (s0 : inmem) (n : nat)
    (σ : state retval) : Prop :=
  ∃ s ths lg,
    σ = Running s ((fun th => at_phase th.1 th.2) <$> ths) ∧
    ths.*1 = cs ∧
    sum_list_with (fun th => steps_left th.2) ths + n = 3 * length cs ∧
    lock_inv s ths ∧
    linearized s0 s ths lg.

(** A goroutine that holds the lock for writing is the only one that holds
    the lock. *)
Definition exclusive {A : Type} (σ : state A) : Prop :=
  ∀ s ts i j p q,
    σ = Running s ts -> i ≠ j -> ts !! i = Some p -> ts !! j = Some q ->
    in_write_section p = true -> in_critical_section q = false.

(** The calls [cs], the values [rs] they returned and the store [s] they left
    are what a single caller gets who starts from [s0] and makes the same
    calls one after the other, in some order. *)
Definition sequential_in_some_order (cs : list call) (s0 : inmem)
    (rs : list retval) (s : inmem) : Prop :=
  length rs = length cs ∧
  ∃ lg, lg ≡ₚ zip cs rs ∧ run (invoke_all lg.*1) s0 = Returns lg.*2 s.

(** *** What a history of calls leaves behind *)

(** The bucket key a call is about. *)
Definition key_of (c : call) : string :=
  match c with
  | CallSet _ k _ | CallGet _ k | CallDelete _ k => k
  end.

(** The TAT the calls of [h], made in that order, leave for [k] on a store
    that held [before] for it: the TAT of the last [Set] on [k], unless a
    [Delete] on [k] came after it. *)
Fixpoint last_write (k : string) (h : list call) (before : option Time)
  : option Time :=
  match h with
  | [] => before
  | CallSet _ k' t :: h' =>
      last_write k h' (if bool_decide (k' = k) then Some t else before)
  | CallDelete _ k' :: h' =>
      last_write k h' (if bool_decide (k' = k) then None else before)
  | CallGet _ _ :: h' => last_write k h' before
  end.

(** What call [c] returns, and the map it leaves, when it is made by a single
    caller on a store that holds [mm] and that nobody holds locked. *)
Definition call_alone (c : call) (mm : gmap string Time)
  : retval * gmap string Time :=
  match c with
  | CallSet _ k t => (RetErr None, <[k := t]> mm)
  | CallGet _ k =>
      (match mm !! k with
       | Some tat => RetTat tat None
       | None => RetTat zeroValue (Some ErrBucketNotFound)
       end, mm)
  | CallDelete _ k => (RetErr None, delete k mm)
  end.

End Store.

Arguments inmem Time : clear implicits.
Arguments phase Time : clear implicits.
Arguments action Time : clear implicits.
Arguments outcome Time A : clear implicits.
Arguments prog Time A : clear implicits.
Arguments call Time : clear implicits.
Arguments retval Time : clear implicits.
Arguments state Time A : clear implicits.
Arguments Returns {Time A} a s.
Arguments Blocks {Time A}.
Arguments Fatal {Time A} msg.
Arguments Ret {Time A} a.
Arguments Do {Time A B} a k.
Arguments Running {Time A} s ts.
Arguments Aborted {Time A} msg.

End ratelimits.

Module measured_http.

(** ** Constants of [net/http] *)

Definition MethodGet : string := "GET".
Definition MethodHead : string := "HEAD".
Definition MethodPost : string := "POST".
Definition MethodPut : string := "PUT".
Definition MethodPatch : string := "PATCH".
Definition MethodDelete : string := "DELETE".
Definition MethodConnect : string := "CONNECT".
Definition MethodOptions : string := "OPTIONS".
Definition MethodTrace : string := "TRACE".

Definition StatusOK : Z := 200.

(** The part of an [http.Request] the decorator reads. *)
Record Request : Type := mkRequest { Method : string; Path : string }.

(** A call made on an [http.ResponseWriter]. *)
Inductive writerCall : Type :=
| CallWriteHeader (code : Z)
| CallWrite (body : list Byte.byte).

(** [responseWriterWithStatus]: the wrapped writer, seen through the calls
    forwarded to it so far, and the recorded status code. *)
Record responseWriterWithStatus : Type := mkWriter {
  ResponseWriter : list writerCall;
  code : Z
}.

Definition WriteHeader (r : responseWriterWithStatus) (c : Z)
  : responseWriterWithStatus :=
  mkWriter (ResponseWriter r ++ [CallWriteHeader c]) c.

Definition Write (r : responseWriterWithStatus) (body : list Byte.byte)
  : responseWriterWithStatus :=
  let code' := if (code r =? 0)%Z then StatusOK else code r in
  mkWriter (ResponseWriter r ++ [CallWrite body]) code'.

(** An [http.Handler]: for a request, the calls it makes on the writer it is
    given, and the time it takes (nanoseconds). *)
Record Handler : Type := mkHandler {
  calls : Request -> list writerCall;
  elapsed : Request -> Z
}.

Definition Handler_ServeHTTP (sub : Handler) (w : responseWriterWithStatus)
    (r : Request) : responseWriterWithStatus :=
  foldl (fun w c =>
           match c with
           | CallWriteHeader c => WriteHeader w c
           | CallWrite body => Write w body
           end) w (calls sub r).

(** The call writes a body; it does not set a status. *)
Definition is_Write (c : writerCall) : bool :=
  match c with
  | CallWrite _ => true
  | CallWriteHeader _ => false
  end.

(** The label set of one histogram observation. *)
Record Labels : Type := mkLabels {
  endpoint : string;
  method : string;
  code_label : string
}.

(** The [switch r.Method]: the method string when it is a recognized HTTP
    method, ["unknown"] otherwise. *)
Definition method_label (r : Request) : string :=
  if (String.eqb (Method r) MethodGet || String.eqb (Method r) MethodHead
      || String.eqb (Method r) MethodPost || String.eqb (Method r) MethodPut
      || String.eqb (Method r) MethodPatch || String.eqb (Method r) MethodDelete
      || String.eqb (Method r) MethodConnect
      || String.eqb (Method r) MethodOptions || String.eqb (Method r) MethodTrace)%bool
  then Method r
  else "unknown".

(** The fixed set of recognized methods. *)
Definition recognized_methods : list string :=
  [MethodGet; MethodHead; MethodPost; MethodPut; MethodPatch; MethodDelete;
   MethodConnect; MethodOptions; MethodTrace].

Section Measured.

(** [strconv.Itoa], and [time.Duration.Seconds] into [float64]. *)
Context {float64 : Type}.
Variable Itoa : Z -> string.
Variable Seconds : Z -> float64.

(** [MeasuredHandler]: the mux, the clock's reading (nanoseconds), the
    observations of the histogram vector, the gauge vector. *)
Record MeasuredHandler : Type := mkMeasured {
  serveMux : Request -> Handler * string;
  clk : Z;
  stat : list (Labels * float64);
  inFlightRequestsGauge : gmap string Z
}.

Definition Inc (label : string) (g : gmap string Z) : gmap string Z :=
  <[label := (default 0 (g !! label) + 1)%Z]> g.

Definition Dec (label : string) (g : gmap string Z) : gmap string Z :=
  <[label := (default 0 (g !! label) - 1)%Z]> g.

(** [ServeHTTP]: the handler after the request, and the wrapped writer. *)
Definition ServeHTTP (h : MeasuredHandler) (w : list writerCall) (r : Request)
  : MeasuredHandler * responseWriterWithStatus :=
  let begin := clk h in
  let rwws := mkWriter w 0 in
  let '(subHandler, pattern) := serveMux h r in
  let gauge := Inc pattern (inFlightRequestsGauge h) in
  let method := method_label r in
  let rwws := Handler_ServeHTTP subHandler rwws r in
  let now := (clk h + elapsed subHandler r)%Z in
  (* deferred calls, last registered first *)
  let stat :=
    stat h ++ [(mkLabels pattern method (Itoa (code rwws)), Seconds (now - begin)%Z)] in
  let gauge := Dec pattern gauge in
  (mkMeasured (serveMux h) now stat gauge, rwws).

End Measured.

Arguments MeasuredHandler float64 : clear implicits.
Arguments mkMeasured {float64} serveMux clk stat inFlightRequestsGauge.

End measured_http.

(** ** Example data *)

Definition alice : string := "login:alice".
Definition bob : string := "login:bob".

(** A store nobody holds locked, with a TAT for [bob] only; times are
    nanoseconds. *)
Definition store1 : ratelimits.inmem Z :=
  ratelimits.mkInmem (ratelimits.mkRWMutex false 0) {[bob := 30%Z]}.

(** Two goroutines that both set the TAT of [alice]. *)
Definition two_sets : list (ratelimits.call Z) :=
  [ratelimits.CallSet context.Background alice 60%Z;
   ratelimits.CallSet context.WithCancelled alice 120%Z].

(** Three goroutines that all set the TAT of [alice]. *)
Definition three_writers : list (context.Context * Z) :=
  [(context.Background, 60%Z); (context.WithCancelled, 120%Z);
   (context.Background, 180%Z)].

(** A goroutine that sets the TAT of [bob] and one that reads it. *)
Definition writer_and_reader : list (ratelimits.call Z) :=
  [ratelimits.CallSet context.Background bob 90%Z;
   ratelimits.CallGet context.Background bob].

(** A goroutine that sets the TAT of [alice] and one that deletes that of
    [bob]. *)
Definition set_alice_delete_bob : list (ratelimits.call Z) :=
  [ratelimits.CallSet context.Background alice 60%Z;
   ratelimits.CallDelete context.Background bob].

(** [strconv.Itoa] for the examples. *)
Definition decimal (z : Z) : string := NilZero.string_of_int (Z.to_int z).

(** A handler that answers 404 with an empty body, one that only writes a
    body, and one that does nothing. *)
Definition not_found_handler : measured_http.Handler :=
  measured_http.mkHandler
    (fun _ => [measured_http.CallWriteHeader 200; measured_http.CallWrite [];
               measured_http.CallWriteHeader 404; measured_http.CallWrite []])
    (fun _ => 1500%Z).

Definition body_handler : measured_http.Handler :=
  measured_http.mkHandler (fun _ => [measured_http.CallWrite []]) (fun _ => 10%Z).

Definition silent_handler : measured_http.Handler :=
  measured_http.mkHandler (fun _ => []) (fun _ => 1%Z).

Definition example_mux (r : measured_http.Request)
  : measured_http.Handler * string :=
  if String.eqb (measured_http.Path r) "/directory"
  then (body_handler, "/directory")
  else if String.eqb (measured_http.Path r) "/health"
  then (silent_handler, "/health")
  else (not_found_handler, "/").

(** A handler with nothing recorded yet; durations are kept in nanoseconds. *)
Definition measured0 : measured_http.MeasuredHandler Z :=
  measured_http.mkMeasured example_mux 0%Z [] ∅.

(** * Properties of the bucket state store *)

Import ratelimits.

(** ** Facts about sums and filtered maps over lists *)

Section ListFacts.
Context {A : Type}.
Implicit Types (l : list A) (f : A → nat).

Lemma sum_list_with_cons f a l :
  sum_list_with f (a :: l) = f a + sum_list_with f l.
Proof. reflexivity. Qed.

Lemma sum_list_with_insert f l i x y :
  l !! i = Some x ->
  sum_list_with f (<[i := y]> l) + f x = sum_list_with f l + f y.
Proof.
  revert i. induction l as [| a l IH]; intros [| i] Hi; try done.
  - injection Hi as ->. change (<[0 := y]> (x :: l)) with (y :: l).
    rewrite !sum_list_with_cons. lia.
  - change (<[S i := y]> (a :: l)) with (a :: <[i := y]> l).
    rewrite !sum_list_with_cons. specialize (IH i Hi). lia.
Qed.

Lemma sum_list_with_lookup f l i x :
  l !! i = Some x -> f x ≤ sum_list_with f l.
Proof. intros Hi. apply sum_list_with_in. by eapply list_elem_of_lookup_2. Qed.

Lemma sum_list_with_lookup2 f l i j x y :
  i ≠ j -> l !! i = Some x -> l !! j = Some y ->
  f x + f y ≤ sum_list_with f l.
Proof.
  revert i j. induction l as [| a l IH]; intros [| i] [| j] Hij Hi Hj;
    try done; rewrite sum_list_with_cons.
  - injection Hi as ->. pose proof (sum_list_with_lookup f l j y Hj). lia.
  - injection Hj as ->. pose proof (sum_list_with_lookup f l i x Hi). lia.
  - assert (i ≠ j) as Hne by congruence. specialize (IH i j Hne Hi Hj). lia.
Qed.

Lemma sum_list_with_pos f l :
  0 < sum_list_with f l -> ∃ i x, l !! i = Some x ∧ 0 < f x.
Proof.
  induction l as [| a l IH]; [cbn; lia |].
  rewrite sum_list_with_cons. intros Hpos.
  destruct (decide (0 < f a)) as [Ha | Ha].
  - by exists 0, a.
  - destruct IH as (i & x & Hi & Hx); [lia |]. by exists (S i), x.
Qed.

Lemma omap_cons {B} (g : A → option B) a l :
  omap g (a :: l) = match g a with Some b => b :: omap g l | None => omap g l end.
Proof. reflexivity. Qed.

Lemma omap_insert_same {B} (g : A → option B) l i x y :
  l !! i = Some x -> g y = g x -> omap g (<[i := y]> l) = omap g l.
Proof.
  revert i. induction l as [| a l IH]; intros [| i] Hi Hg; try done.
  - injection Hi as ->. change (<[0 := y]> (x :: l)) with (y :: l).
    by rewrite !omap_cons, Hg.
  - change (<[S i := y]> (a :: l)) with (a :: <[i := y]> l).
    by rewrite !omap_cons, IH.
Qed.

Lemma omap_insert_new {B} (g : A → option B) l i x y z :
  l !! i = Some x -> g x = None -> g y = Some z ->
  omap g (<[i := y]> l) ≡ₚ z :: omap g l.
Proof.
  revert i. induction l as [| a l IH]; intros [| i] Hi Hx Hy; try done.
  - injection Hi as ->. change (<[0 := y]> (x :: l)) with (y :: l).
    by rewrite !omap_cons, Hx, Hy.
  - change (<[S i := y]> (a :: l)) with (a :: <[i := y]> l).
    rewrite !omap_cons. specialize (IH i Hi Hx Hy).
    destruct (g a); rewrite IH; [apply Permutation_swap | done].
Qed.

End ListFacts.

Section StoreProperties.

Context {Time : Type} `{!ZeroValue Time}.

Implicit Types (s : inmem Time) (k bucketKey : string) (t tat : Time).
Implicit Types (ctx : context.Context) (h : list (call Time)).

(** ** Running the methods *)

Lemma run_bind {A B : Type} (p : prog Time A) (f : A -> prog Time B) s :
  run (p ≫= f) s =
  match run p s with
  | Returns a s' => run (f a) s'
  | Blocks => Blocks
  | Fatal msg => Fatal msg
  end.
Proof.
  revert s. induction p as [a | C a k IH]; intros s; [reflexivity |].
  cbn. destruct (perform a s) as [b s' | | msg]; [apply IH | reflexivity ..].
Qed.

Lemma run_Set ctx k t s :
  run (inmem_Set ctx k t) s =
  match mu s with
  | mkRWMutex false 0 =>
      Returns None (mkInmem (mkRWMutex false 0) (<[k := t]> (m s)))
  | _ => Blocks
  end.
Proof. destruct s as [[[] []] mm]; reflexivity. Qed.

Lemma run_Delete ctx k s :
  run (inmem_Delete ctx k) s =
  match mu s with
  | mkRWMutex false 0 =>
      Returns None (mkInmem (mkRWMutex false 0) (delete k (m s)))
  | _ => Blocks
  end.
Proof. destruct s as [[[] []] mm]; reflexivity. Qed.

Lemma run_Get ctx k s :
  run (inmem_Get ctx k) s =
  if writer (mu s) then Blocks
  else match m s !! k with
       | Some tat => Returns (tat, None) s
       | None => Returns (zeroValue, Some ErrBucketNotFound) s
       end.
Proof.
  destruct s as [[[] r] mm]; [reflexivity |].
  cbn. destruct (mm !! k); reflexivity.
Qed.

(** On a store nobody holds locked, each method returns. *)

Lemma run_Set_unlocked ctx k t mm :
  run (inmem_Set ctx k t) (mkInmem (mkRWMutex false 0) mm) =
  Returns None (mkInmem (mkRWMutex false 0) (<[k := t]> mm)).
Proof. reflexivity. Qed.

Lemma run_Delete_unlocked ctx k mm :
  run (inmem_Delete ctx k) (mkInmem (mkRWMutex false 0) mm) =
  Returns None (mkInmem (mkRWMutex false 0) (delete k mm)).
Proof. reflexivity. Qed.

Lemma run_Get_unlocked ctx k mm :
  run (inmem_Get ctx k) (mkInmem (mkRWMutex false 0) mm) =
  match mm !! k with
  | Some tat => Returns (tat, None) (mkInmem (mkRWMutex false 0) mm)
  | None =>
      Returns (zeroValue, Some ErrBucketNotFound) (mkInmem (mkRWMutex false 0) mm)
  end.
Proof. rewrite run_Get. reflexivity. Qed.

Lemma unlocked_inv s : unlocked s -> s = mkInmem (mkRWMutex false 0) (m s).
Proof. destruct s as [mu0 mm]. unfold unlocked. cbn. by intros ->. Qed.

Ltac unlock_store s H :=
  let mm := fresh "mm" in
  apply unlocked_inv in H; destruct s as [? mm]; cbn in H;
  injection H as ->.

Lemma run_invoke c s :
  unlocked s ->
  ∃ r s', run (invoke c) s = Returns r s' ∧ unlocked s' ∧
          ∀ k, sets_key k c = false -> m s !! k = None -> m s' !! k = None.
Proof.
  intros Hs. unlock_store s Hs. destruct c as [ctx k t | ctx k | ctx k]; cbn [invoke].
  - rewrite run_bind, run_Set_unlocked. eexists _, _. split_and!; [done .. |].
    intros k' Hk' Hnone. cbn in *. apply bool_decide_eq_false in Hk'.
    by rewrite lookup_insert_ne.
  - rewrite run_bind, run_Get_unlocked.
    destruct (mm !! k); eexists _, _; split_and!; done.
  - rewrite run_bind, run_Delete_unlocked. eexists _, _. split_and!; [done .. |].
    intros k' _ Hnone. cbn in *. rewrite lookup_delete. by case_decide.
Qed.

Lemma run_invoke_all h s :
  unlocked s ->
  ∃ rs s', run (invoke_all h) s = Returns rs s' ∧ unlocked s' ∧
           ∀ k, never_sets k h = true -> m s !! k = None -> m s' !! k = None.
Proof.
  revert s. induction h as [| c h IH]; intros s Hs.
  - eexists _, _. split_and!; done.
  - destruct (run_invoke c s Hs) as (r & s1 & Hr & Hs1 & Hk1).
    destruct (IH s1 Hs1) as (rs & s2 & Hrs & Hs2 & Hk2).
    exists (r :: rs), s2. split_and!; [| done |].
    + cbn [invoke_all]. rewrite run_bind, Hr, run_bind, Hrs. done.
    + intros k Hk Hnone. cbn in Hk. apply andb_true_iff in Hk as [Hc Hh].
      apply negb_true_iff in Hc. auto.
Qed.

(** ** Claims about one caller *)

(** C1. [Set(k, t1); Set(k, t2); Get(k)] returns [t2] and no error, whatever
    the store held for [k] before: the second [Set] replaces the first. *)
Theorem set_set_get_last_write_wins ctx1 ctx2 ctx3 k t1 t2 s :
  unlocked s ->
  run (inmem_Set ctx1 k t1;; inmem_Set ctx2 k t2;; inmem_Get ctx3 k) s =
  Returns (t2, None) (mkInmem (mu s) (<[k := t2]> (m s))).
Proof.
  intros Hs. unlock_store s Hs.
  rewrite run_bind, run_Set_unlocked, run_bind, run_Set_unlocked.
  rewrite run_Get_unlocked, lookup_insert_eq, insert_insert_eq. done.
Qed.

(** C2. On a new store, after any calls none of which is a [Set] on [k],
    [Get(k)] fails with [ErrBucketNotFound]; and so it does after any calls
    followed by [Delete(k)] and by calls none of which is a [Set] on [k].
    The error is not nil, so the zero time returned with it is not a TAT. *)
Theorem get_absent_key_not_found h h' ctx ctx' k :
  never_sets k h' = true ->
  (∃ s', run (invoke_all h';; inmem_Get ctx k) newInmem =
         Returns (zeroValue, Some ErrBucketNotFound) s') ∧
  (∃ s', run (invoke_all h;; inmem_Delete ctx' k;; invoke_all h';;
              inmem_Get ctx k) newInmem =
         Returns (zeroValue, Some ErrBucketNotFound) s').
Proof.
  intros Hh'. split.
  - destruct (run_invoke_all h' newInmem) as (rs & s1 & Hrs & Hs1 & Hk); [done |].
    exists s1. rewrite run_bind, Hrs.
    specialize (Hk k Hh' (lookup_empty _)). unlock_store s1 Hs1. cbn in Hk.
    by rewrite run_Get_unlocked, Hk.
  - destruct (run_invoke_all h newInmem) as (rs & s1 & Hrs & Hs1 & _); [done |].
    rewrite run_bind, Hrs. unlock_store s1 Hs1.
    rewrite run_bind, run_Delete_unlocked.
    destruct (run_invoke_all h' (mkInmem (mkRWMutex false 0) (delete k mm)))
      as (rs' & s2 & Hrs' & Hs2 & Hk); [done |].
    exists s2. rewrite run_bind, Hrs'.
    specialize (Hk k Hh' (lookup_delete_eq _ _)). unlock_store s2 Hs2. cbn in Hk.
    by rewrite run_Get_unlocked, Hk.
Qed.

(** C3. [Set(k, t); Delete(k); Get(k)] fails with [ErrBucketNotFound], and the
    store no longer holds anything for [k]. *)
Theorem set_delete_get_not_found ctx1 ctx2 ctx3 k t s :
  unlocked s ->
  run (inmem_Set ctx1 k t;; inmem_Delete ctx2 k;; inmem_Get ctx3 k) s =
  Returns (zeroValue, Some ErrBucketNotFound) (mkInmem (mu s) (delete k (m s))).
Proof.
  intros Hs. unlock_store s Hs.
  rewrite run_bind, run_Set_unlocked, run_bind, run_Delete_unlocked.
  rewrite run_Get_unlocked, lookup_delete_eq, delete_insert_eq. done.
Qed.

(** C4. [Delete(k)] of a key the store does not hold returns a nil error and
    leaves the store as it was. *)
Theorem delete_absent_key_succeeds ctx k s :
  unlocked s ->
  m s !! k = None ->
  run (inmem_Delete ctx k) s = Returns None s.
Proof.
  intros Hs Hk. unlock_store s Hs. cbn in Hk.
  rewrite run_Delete_unlocked, delete_id; done.
Qed.

(** C5. When [Get] returns a non-nil error, the key is not in the store and
    the error is [ErrBucketNotFound], which differs from both errors of the
    [context] package; and when the key is not in the store, [Get] returns
    that very value. *)
Theorem get_failure_is_the_sentinel ctx k s :
  (∀ tat e s', run (inmem_Get ctx k) s = Returns (tat, Some e) s' ->
     e = ErrBucketNotFound ∧ m s !! k = None) ∧
  (unlocked s -> m s !! k = None ->
     run (inmem_Get ctx k) s = Returns (zeroValue, Some ErrBucketNotFound) s) ∧
  ErrBucketNotFound ≠ context.Canceled ∧
  ErrBucketNotFound ≠ context.DeadlineExceeded.
Proof.
  split_and!; [| | done ..].
  - intros tat e s'. rewrite run_Get.
    destruct (writer (mu s)); [done |].
    destruct (m s !! k); [done |]. by intros [= _ <- _].
  - intros Hs Hk. unlock_store s Hs. cbn in Hk. by rewrite run_Get_unlocked, Hk.
Qed.

(** C6, as the code has it.  Every method takes a context and never looks at
    it: the program of a call is the same for every context, so a call made
    with a cancelled or expired context runs exactly as with
    [context.Background]. *)
Theorem context_is_accepted_and_ignored ctx k t s :
  inmem_Set ctx k t = inmem_Set context.Background k t ∧
  inmem_Get ctx k = inmem_Get context.Background k ∧
  inmem_Delete (Time := Time) ctx k = inmem_Delete context.Background k ∧
  run (inmem_Set ctx k t) s = run (inmem_Set context.Background k t) s ∧
  run (inmem_Get ctx k) s = run (inmem_Get context.Background k) s ∧
  run (inmem_Delete ctx k) s = run (inmem_Delete context.Background k) s.
Proof. split_and!; reflexivity. Qed.

(** C9. [Set] and [Delete] return only a nil error, the only error [Get]
    returns is [ErrBucketNotFound], none of the three aborts the process, and
    on a store nobody holds locked all three return. *)
Theorem inmem_has_no_transient_failure ctx k t s :
  (∀ e s', run (inmem_Set ctx k t) s = Returns e s' -> e = None) ∧
  (∀ e s', run (inmem_Delete ctx k) s = Returns e s' -> e = None) ∧
  (∀ tat e s', run (inmem_Get ctx k) s = Returns (tat, Some e) s' ->
     e = ErrBucketNotFound) ∧
  (∀ msg, run (inmem_Set ctx k t) s ≠ Fatal msg ∧
          run (inmem_Delete ctx k) s ≠ Fatal msg ∧
          run (inmem_Get ctx k) s ≠ Fatal msg) ∧
  (unlocked s ->
     (∃ s', run (inmem_Set ctx k t) s = Returns None s') ∧
     (∃ s', run (inmem_Delete ctx k) s = Returns None s') ∧
     (∃ r s', run (inmem_Get ctx k) s = Returns r s')).
Proof.
  split_and!.
  - intros e s'. rewrite run_Set. destruct (mu s) as [[] []]; congruence.
  - intros e s'. rewrite run_Delete. destruct (mu s) as [[] []]; congruence.
  - intros tat e s'. rewrite run_Get.
    destruct (writer (mu s)), (m s !! k); congruence.
  - intros msg. rewrite run_Set, run_Delete, run_Get.
    destruct (mu s) as [[] []], (m s !! k); done.
  - intros Hs. unlock_store s Hs.
    rewrite run_Set_unlocked, run_Delete_unlocked, run_Get_unlocked.
    split_and!; [by eexists .. |]. destruct (mm !! k); by eexists _, _.
Qed.

(** C10. [Set(k, t)] and [Delete(k)] leave what the store holds for any other
    key [k'] as it was, and [Get(k)] leaves the whole store as it was. *)
Theorem operations_touch_only_their_key ctx k k' t s :
  k ≠ k' ->
  unlocked s ->
  (∃ s', run (inmem_Set ctx k t) s = Returns None s' ∧ m s' !! k' = m s !! k') ∧
  (∃ s', run (inmem_Delete ctx k) s = Returns None s' ∧ m s' !! k' = m s !! k') ∧
  (∃ r, run (inmem_Get ctx k) s = Returns r s).
Proof.
  intros Hk Hs. unlock_store s Hs.
  rewrite run_Set_unlocked, run_Delete_unlocked, run_Get_unlocked.
  split_and!.
  - eexists. split; [done |]. cbn. by rewrite lookup_insert_ne.
  - eexists. split; [done |]. cbn. by rewrite lookup_delete_ne.
  - destruct (mm !! k); by eexists.
Qed.

(** ** Many callers *)

Abbreviation free := (mkRWMutex false 0).

Lemma run_invoke_unlocked c mm :
  run (invoke c) (mkInmem free mm) =
  match c with
  | CallSet _ k t => Returns (RetErr None) (mkInmem free (<[k := t]> mm))
  | CallGet _ k =>
      match mm !! k with
      | Some v => Returns (RetTat v None) (mkInmem free mm)
      | None =>
          Returns (RetTat zeroValue (Some ErrBucketNotFound)) (mkInmem free mm)
      end
  | CallDelete _ k => Returns (RetErr None) (mkInmem free (delete k mm))
  end.
Proof.
  destruct c as [ctx k t | ctx k | ctx k]; cbn [invoke]; rewrite run_bind.
  - by rewrite run_Set_unlocked.
  - rewrite run_Get_unlocked. by destruct (mm !! k).
  - by rewrite run_Delete_unlocked.
Qed.

Lemma run_invoke_all_snoc (h : list (call Time)) c s0 rs s1 r s2 :
  run (invoke_all h) s0 = Returns rs s1 ->
  run (invoke c) s1 = Returns r s2 ->
  run (invoke_all (h ++ [c])) s0 = Returns (rs ++ [r]) s2.
Proof.
  revert s0 rs. induction h as [| c' h IH]; intros s0 rs Hh Hc.
  - cbn in Hh. injection Hh as <- <-. cbn [app invoke_all].
    rewrite run_bind, Hc. done.
  - cbn [app invoke_all] in *. rewrite run_bind in *.
    destruct (run (invoke c') s0) as [r' s' | |]; [| done ..].
    rewrite run_bind in *.
    destruct (run (invoke_all h) s') as [rs' s'' | |] eqn:Hrun; [| done ..].
    cbn in Hh. injection Hh as <- <-.
    by rewrite (IH _ _ Hrun Hc).
Qed.

Abbreviation code := (fun th : call Time * phase Time => at_phase th.1 th.2).

Lemma sum_list_with_idle (f : call Time * phase Time → nat) n cs :
  (∀ c, f (c, Idle) = n) ->
  sum_list_with f ((., Idle) <$> cs) = n * length cs.
Proof.
  intros Hf. induction cs as [| c cs IH]; [cbn; lia |].
  rewrite fmap_cons, sum_list_with_cons, Hf, IH, length_cons. lia.
Qed.

Lemma reach_inv_init cs s0 : unlocked s0 -> reach_inv cs s0 0 (spawn s0 cs).
Proof.
  intros Hs0. exists s0, ((., Idle) <$> cs), [].
  split_and!.
  - unfold spawn. f_equal. rewrite <- list_fmap_compose. done.
  - rewrite <- list_fmap_compose. apply list_fmap_id.
  - rewrite (sum_list_with_idle _ 3) by done. lia.
  - unfold lock_inv, write_holders, read_holders.
    rewrite !(sum_list_with_idle _ 0) by (intros c; cbn; by rewrite andb_false_r).
    cbn. split_and!; [exact Hs0 | lia ..].
  - split.
    + induction cs as [| c cs IH]; [done |]. by rewrite fmap_cons, omap_cons.
    + exists s0. done.
Qed.

Lemma move_thread ths i c ph ph' :
  ths !! i = Some (c, ph) ->
  (<[i := (c, ph')]> ths).*1 = ths.*1 ∧
  code <$> <[i := (c, ph')]> ths = <[i := at_phase c ph']> (code <$> ths) ∧
  sum_list_with (λ th, steps_left th.2) (<[i := (c, ph')]> ths) + steps_left ph =
    sum_list_with (λ th, steps_left th.2) ths + steps_left ph' ∧
  write_holders (<[i := (c, ph')]> ths) + (if negb (is_Get c) && in_cs ph then 1 else 0) =
    write_holders ths + (if negb (is_Get c) && in_cs ph' then 1 else 0) ∧
  read_holders (<[i := (c, ph')]> ths) + (if is_Get c && in_cs ph then 1 else 0) =
    read_holders ths + (if is_Get c && in_cs ph' then 1 else 0).
Proof.
  intros Hth. split_and!.
  - rewrite list_fmap_insert. apply list_insert_id. by rewrite list_lookup_fmap, Hth.
  - by rewrite list_fmap_insert.
  - exact (sum_list_with_insert (λ th, steps_left th.2) _ _ _ (c, ph') Hth).
  - exact (sum_list_with_insert _ _ _ _ (c, ph') Hth).
  - exact (sum_list_with_insert _ _ _ _ (c, ph') Hth).
Qed.

Lemma linearized_keep s0 s ths lg i c ph ph' :
  ths !! i = Some (c, ph) ->
  result_of ph' = result_of ph ->
  linearized s0 s ths lg ->
  ∀ mu', linearized s0 (mkInmem mu' (m s)) (<[i := (c, ph')]> ths) lg.
Proof.
  intros Hth Hres (Hperm & s1 & Hrun & Hs1 & Hm) mu'. split.
  - rewrite (omap_insert_same entry ths i (c, ph)); [done .. |].
    unfold entry. cbn. by rewrite Hres.
  - by exists s1.
Qed.

Lemma linearized_log s0 s ths lg i c r mm' :
  ths !! i = Some (c, Holding) ->
  run (invoke c) (mkInmem free (m s)) = Returns r (mkInmem free mm') ->
  linearized s0 s ths lg ->
  linearized s0 (mkInmem (mu s) mm') (<[i := (c, Releasing r)]> ths)
    (lg ++ [(c, r)]).
Proof.
  intros Hth Hc (Hperm & s1 & Hrun & Hs1 & Hm). split.
  - rewrite (omap_insert_new entry ths i (c, Holding) _ (c, r)) by done.
    rewrite <- Hperm. symmetry. apply Permutation_cons_append.
  - exists (mkInmem free mm'). split_and!; [| done ..].
    rewrite !fmap_app. apply (run_invoke_all_snoc _ _ _ _ s1); [done |].
    unlock_store s1 Hs1. cbn in Hm. by subst.
Qed.

Ltac holders_of w Hw :=
  destruct w; symmetry in Hw;
  [apply bool_decide_eq_true in Hw | apply bool_decide_eq_false in Hw].

Ltac lock_inv_tac :=
  unfold lock_inv; cbn [mu];
  split_and!; [case_bool_decide; first [exfalso; lia | f_equal; lia] | lia ..].

Lemma reach_inv_step cs s0 n σ σ' :
  reach_inv cs s0 n σ -> step σ σ' -> reach_inv cs s0 (S n) σ'.
Proof.
  intros (s & ths & lg & -> & Hcs & Hleft & (Hmu & Hw1 & Hwr) & Hlin) [i Hi].
  unfold sched in Hi. rewrite list_lookup_fmap in Hi.
  destruct (ths !! i) as [[c ph] |] eqn:Hth; [| done].
  cbn [fmap option_fmap option_map fst snd] in Hi.
  destruct s as [[w r] mm]. cbn in Hmu. injection Hmu as Hw Hr.
  destruct ph as [| | r0 | r0].
  - (* takes the lock *)
    destruct (move_thread ths i c Idle Holding Hth) as (Hfst & Hcode & Hsteps & HW & HR).
    pose proof (linearized_keep s0 _ ths lg i c Idle Holding Hth eq_refl Hlin) as Hlin'.
    destruct c as [ctx k t | ctx k | ctx k]; cbn in Hi, Hsteps, HW, HR;
      holders_of w Hw; try done;
      try (destruct r; [| done]); injection Hi as <-;
      eexists _, (<[i := (_, Holding)]> ths), lg;
      (split_and!; [by rewrite Hcode | congruence | lia | lock_inv_tac | apply Hlin']).
  - (* touches the map *)
    assert (∀ rv mm',
      run (invoke c) (mkInmem free mm) = Returns rv (mkInmem free mm') ->
      Running (mkInmem (mkRWMutex w r) mm')
        (<[i := at_phase c (Releasing rv)]> (code <$> ths)) = σ' ->
      reach_inv cs s0 (S n) σ') as Hgo.
    { intros rv mm' Hrun <-.
      destruct (move_thread ths i c Holding (Releasing rv) Hth)
        as (Hfst & Hcode & Hsteps & HW & HR).
      pose proof (linearized_log s0 (mkInmem (mkRWMutex w r) mm) ths lg i c rv
                    mm' Hth Hrun Hlin) as Hlin'.
      cbn in Hsteps, HW, HR.
      eexists _, _, _.
      split_and!; [by rewrite Hcode | congruence | lia | | apply Hlin'].
      holders_of w Hw; lock_inv_tac. }
    destruct c as [ctx k t | ctx k | ctx k]; cbn in Hi.
    + injection Hi as Hi. apply (Hgo _ _ (run_invoke_unlocked _ _) Hi).
    + pose proof (run_invoke_unlocked (CallGet ctx k) mm) as Hrun.
      cbv beta iota in Hrun.
      destruct (mm !! k) as [v |]; injection Hi as Hi; apply (Hgo _ _ Hrun Hi).
    + injection Hi as Hi. apply (Hgo _ _ (run_invoke_unlocked _ _) Hi).
  - (* releases the lock *)
    destruct (move_thread ths i c (Releasing r0) (Returned r0) Hth)
      as (Hfst & Hcode & Hsteps & HW & HR).
    pose proof (linearized_keep s0 _ ths lg i c _ (Returned r0) Hth eq_refl Hlin)
      as Hlin'.
    pose proof (sum_list_with_lookup
      (λ th, if negb (is_Get th.1) && in_cs th.2 then 1 else 0) _ _ _ Hth) as HWi.
    pose proof (sum_list_with_lookup
      (λ th, if is_Get th.1 && in_cs th.2 then 1 else 0) _ _ _ Hth) as HRi.
    fold (write_holders ths) in HWi. fold (read_holders ths) in HRi.
    destruct c as [ctx k t | ctx k | ctx k];
      cbn in Hi, Hsteps, HW, HR, HWi, HRi;
      holders_of w Hw; try lia; try (destruct r; [lia |]); injection Hi as <-;
      eexists _, (<[i := (_, Returned r0)]> ths), lg;
      (split_and!; [by rewrite Hcode | congruence | lia | lock_inv_tac | apply Hlin']).
  - destruct c; done.
Qed.


Lemma reach_inv_nsteps cs s0 n σ :
  unlocked s0 -> nsteps step n (spawn s0 cs) σ -> reach_inv cs s0 n σ.
Proof.
  intros Hs0. revert σ. induction n as [| n IH]; intros σ Hn.
  - inversion Hn; subst. by apply reach_inv_init.
  - apply nsteps_inv_r in Hn as (σ1 & Hn & Hstep).
    eapply reach_inv_step; eauto.
Qed.

Lemma sched_thread i s ths c ph :
  ths !! i = Some (c, ph) ->
  sched i (Running s (code <$> ths)) =
  match at_phase c ph with
  | Ret _ => None
  | Do a k =>
      match perform a s with
      | Returns b s' => Some (Running s' (<[i := k b]> (code <$> ths)))
      | Blocks => None
      | Fatal msg => Some (Aborted msg)
      end
  end.
Proof. intros Hth. unfold sched. by rewrite list_lookup_fmap, Hth. Qed.

Lemma reach_inv_progress cs s0 n σ :
  reach_inv cs s0 n σ -> n < 3 * length cs -> ∃ σ', step σ σ'.
Proof.
  intros (s & ths & lg & -> & Hcs & Hleft & (Hmu & Hw1 & Hwr) & Hlin) Hn.
  destruct s as [[w r] mm]. cbn in Hmu. injection Hmu as Hw Hr.
  assert (∀ i c ph, ths !! i = Some (c, ph) ->
            (if negb (is_Get c) && in_cs ph then 1 else 0) ≤ write_holders ths ∧
            (if is_Get c && in_cs ph then 1 else 0) ≤ read_holders ths) as Hle.
  { intros i c ph Hth. split.
    - apply (sum_list_with_lookup
        (λ th, if negb (is_Get th.1) && in_cs th.2 then 1 else 0) _ _ _ Hth).
    - apply (sum_list_with_lookup
        (λ th, if is_Get th.1 && in_cs th.2 then 1 else 0) _ _ _ Hth). }
  assert (∃ i c ph, ths !! i = Some (c, ph) ∧
            (in_cs ph = true ∨
             ph = Idle ∧ write_holders ths = 0 ∧ read_holders ths = 0))
    as (i & c & ph & Hth & Hph).
  { destruct (decide (0 < write_holders ths)) as [HW | HW].
    { apply sum_list_with_pos in HW as (i & [c ph] & Hth & Hpos). cbn in Hpos.
      exists i, c, ph. split; [done |]. left.
      destruct (in_cs ph); [done |]. rewrite andb_false_r in Hpos. lia. }
    destruct (decide (0 < read_holders ths)) as [HR | HR].
    { apply sum_list_with_pos in HR as (i & [c ph] & Hth & Hpos). cbn in Hpos.
      exists i, c, ph. split; [done |]. left.
      destruct (in_cs ph); [done |]. rewrite andb_false_r in Hpos. lia. }
    destruct (sum_list_with_pos (λ th, steps_left th.2) ths)
      as (i & [c ph] & Hth & Hpos); [lia |]. cbn in Hpos.
    exists i, c, ph. split; [done |].
    destruct (Hle i c ph Hth) as [HWi HRi].
    destruct ph, c; cbn in *; try lia; right; split_and!; (done || lia). }
  pose proof (Hle i c ph Hth) as [HWi HRi].
  pose proof (sched_thread i (mkInmem (mkRWMutex w r) mm) ths c ph Hth) as Hsched.
  holders_of w Hw.
  all: destruct Hph as [Hph | (-> & HW0 & HR0)]; [destruct ph; try done |].
  all: destruct c; cbn in *; try lia.
  all: try (destruct r; [lia |]).
  all: try (destruct r; [| lia]).
  all: try (destruct (mm !! _)).
  all: eexists; exists i; exact Hsched.
Qed.

Lemma returned_at_phase c ph r :
  returned (at_phase c ph) = Some r -> ph = Returned r.
Proof. destruct ph, c; cbn; congruence. Qed.

Lemma all_returned ths rs :
  mapM returned (code <$> ths) = Some rs ->
  omap entry ths = zip ths.*1 rs ∧
  sum_list_with (λ th, steps_left th.2) ths = 0 ∧
  write_holders ths = 0 ∧ read_holders ths = 0.
Proof.
  rewrite mapM_Some, Forall2_fmap_l. unfold write_holders, read_holders.
  induction 1 as [| [c ph] r ths rs Hr _ (IH1 & IH2 & IH3 & IH4)]; [done |].
  apply returned_at_phase in Hr. cbn in Hr. subst ph.
  rewrite omap_cons, !sum_list_with_cons, fmap_cons, IH1, IH2, IH3, IH4. cbn.
  by rewrite !andb_false_r.
Qed.

Lemma none_left ths :
  sum_list_with (λ th, steps_left th.2) ths = 0 ->
  ∃ rs, mapM returned (code <$> ths) = Some rs.
Proof.
  induction ths as [| [c ph] ths IH]; [by exists [] |].
  rewrite sum_list_with_cons. intros Hsum.
  destruct IH as [rs Hrs]; [lia |].
  destruct ph as [| | r | r]; cbn in Hsum; try lia.
  exists (r :: rs). rewrite fmap_cons. cbn. by rewrite Hrs.
Qed.

Lemma reach_inv_done cs s0 σ :
  reach_inv cs s0 (3 * length cs) σ -> ∃ s rs, finished σ s rs.
Proof.
  intros (s & ths & lg & -> & Hcs & Hleft & _).
  destruct (none_left ths) as [rs Hrs]; [lia |].
  exists s, rs, (code <$> ths). done.
Qed.

Lemma reach_inv_finished cs s0 n σ s rs :
  reach_inv cs s0 n σ -> finished σ s rs ->
  n = 3 * length cs ∧ length rs = length cs ∧ unlocked s ∧
  ∃ lg, lg ≡ₚ zip cs rs ∧ run (invoke_all lg.*1) s0 = Returns lg.*2 s.
Proof.
  intros (s' & ths & lg & -> & Hcs & Hleft & (Hmu & Hw1 & Hwr) &
          (Hperm & s1 & Hrun & Hs1 & Hm)) (ts & [= <- <-] & Hret).
  pose proof (length_mapM _ _ _ Hret) as Hlen.
  rewrite length_fmap, <- (length_fmap fst), Hcs in Hlen.
  apply all_returned in Hret as (Hlog & Hnone & HW & HR).
  rewrite HW, HR in Hmu. split_and!; [lia | done | exact Hmu |].
  exists lg. split; [by rewrite Hperm, Hlog, Hcs |].
  rewrite Hrun. f_equal. destruct s1 as [mu1 m1], s' as [mu' m'].
  unfold unlocked in Hs1. cbn in Hs1, Hmu, Hm. by subst.
Qed.

(** A goroutine that holds the lock for writing is alone in holding it. *)
Lemma reach_inv_exclusive cs s0 n s ts i j p q :
  reach_inv cs s0 n (Running s ts) ->
  i ≠ j -> ts !! i = Some p -> ts !! j = Some q ->
  in_write_section p = true -> in_critical_section q = false.
Proof.
  intros (s' & ths & lg & [= <- ->] & Hcs & Hleft & (Hmu & Hw1 & Hwr) & Hlin)
    Hij Hi Hj Hp.
  rewrite list_lookup_fmap in Hi, Hj.
  destruct (ths !! i) as [[ci phi] |] eqn:Hthi; [| done].
  destruct (ths !! j) as [[cj phj] |] eqn:Hthj; [| done].
  cbn in Hi, Hj. injection Hi as <-. injection Hj as <-.
  pose proof (sum_list_with_lookup2
    (λ th, if negb (is_Get th.1) && in_cs th.2 then 1 else 0) _ _ _ _ _
    Hij Hthi Hthj) as HW.
  pose proof (sum_list_with_lookup
    (λ th, if is_Get th.1 && in_cs th.2 then 1 else 0) _ _ _ Hthj) as HR.
  fold (write_holders ths) in HW. fold (read_holders ths) in HR.
  destruct ci, phi; try done; destruct cj, phj; try done; cbn in *; lia.
Qed.

(** C7. Goroutines that each make one call, all started together and
    interleaved in any way, take at most three steps each, never abort the
    process and never deadlock; a goroutine that holds the lock for writing
    holds it alone; after three steps each all have returned; and then the
    values they returned and the store they left are those of the same calls
    made one after the other in some order.  For two concurrent [Set(k, t1)]
    and [Set(k, t2)], both return nil and a [Get(k)] made afterwards returns
    [t1] or [t2]. *)
Theorem concurrent_calls_are_linearizable ctx1 ctx2 ctx3 k t1 t2 cs s0 :
  unlocked s0 ->
  (∀ n σ, nsteps step n (spawn s0 cs) σ ->
     n ≤ 3 * length cs ∧
     (∀ msg, σ ≠ Aborted msg) ∧
     exclusive σ ∧
     (n < 3 * length cs -> ∃ σ', step σ σ') ∧
     (n = 3 * length cs -> ∃ s rs, finished σ s rs) ∧
     (∀ s rs, finished σ s rs ->
        unlocked s ∧ sequential_in_some_order cs s0 rs s)) ∧
  (∀ σ s rs,
     rtc step (spawn s0 [CallSet ctx1 k t1; CallSet ctx2 k t2]) σ ->
     finished σ s rs ->
     rs = [RetErr None; RetErr None] ∧
     (run (inmem_Get ctx3 k) s = Returns (t1, None) s ∨
      run (inmem_Get ctx3 k) s = Returns (t2, None) s)).
Proof.
  intros Hs0. split.
  - intros n σ Hn. apply (reach_inv_nsteps _ _ _ _ Hs0) in Hn as Hinv.
    split_and!.
    + destruct Hinv as (s & ths & lg & _ & _ & Hleft & _). lia.
    + destruct Hinv as (s & ths & lg & -> & _). done.
    + intros s ts i j p q ->. by eapply reach_inv_exclusive.
    + by eapply reach_inv_progress.
    + intros ->. by eapply reach_inv_done.
    + intros s rs Hfin.
      destruct (reach_inv_finished _ _ _ _ _ _ Hinv Hfin) as (_ & Hlen & Hs & Hlg).
      by repeat split.
  - intros σ s rs [n Hn]%rtc_nsteps Hfin.
    apply (reach_inv_nsteps _ _ _ _ Hs0) in Hn as Hinv.
    destruct (reach_inv_finished _ _ _ _ _ _ Hinv Hfin)
      as (_ & Hlen & Hs & lg & Hperm & Hrun).
    destruct rs as [| r1 [| r2 [| ? ?]]]; try done. cbn [zip zip_with] in Hperm.
    unlock_store s0 Hs0. symmetry in Hperm.
    apply Permutation_length_2_inv in Hperm as [-> | ->];
      cbn in Hrun; injection Hrun as <- <- <-;
      rewrite run_Get_unlocked, lookup_insert_eq; auto.
Qed.

(** ** More about one caller *)

Implicit Types (c : call Time) (σ : state Time (retval Time)).

Lemma run_invoke_all_cons c h s :
  run (invoke_all (c :: h)) s =
  match run (invoke c) s with
  | Returns r s1 =>
      match run (invoke_all h) s1 with
      | Returns rs s2 => Returns (r :: rs) s2
      | Blocks => Blocks
      | Fatal msg => Fatal msg
      end
  | Blocks => Blocks
  | Fatal msg => Fatal msg
  end.
Proof.
  cbn [invoke_all]. rewrite run_bind.
  destruct (run (invoke c) s) as [r s1 | |]; [| done ..].
  rewrite run_bind. by destruct (run (invoke_all h) s1).
Qed.

Lemma run_history h mm :
  ∃ rs mm',
    run (invoke_all h) (mkInmem free mm) = Returns rs (mkInmem free mm') ∧
    length rs = length h ∧
    ∀ k, mm' !! k = last_write k h (mm !! k).
Proof.
  revert mm. induction h as [| c h IH]; intros mm.
  - by exists [], mm.
  - rewrite run_invoke_all_cons, run_invoke_unlocked.
    destruct c as [ctx k t | ctx k | ctx k]; cbn [last_write].
    + destruct (IH (<[k := t]> mm)) as (rs & mm' & -> & Hlen & Hk).
      eexists _, _. split_and!; [done | by rewrite !length_cons, Hlen |].
      intros k'. rewrite Hk, lookup_insert. by repeat case_decide; case_bool_decide.
    + destruct (IH mm) as (rs & mm' & Hrun & Hlen & Hk).
      destruct (mm !! k); rewrite Hrun;
        (eexists _, _; split_and!; [done | by rewrite !length_cons, Hlen | done]).
    + destruct (IH (delete k mm)) as (rs & mm' & -> & Hlen & Hk).
      eexists _, _. split_and!; [done | by rewrite !length_cons, Hlen |].
      intros k'. rewrite Hk, lookup_delete. by repeat case_decide; case_bool_decide.
Qed.

(** X1. A single caller is never blocked by its own earlier calls: on a store
    nobody holds locked, any sequence of calls returns, with one result per
    call, and leaves the lock free again. *)
Theorem history_never_blocks_and_releases_lock h s :
  unlocked s ->
  ∃ rs s', run (invoke_all h) s = Returns rs s' ∧
           unlocked s' ∧ length rs = length h.
Proof.
  intros Hs. unlock_store s Hs.
  destruct (run_history h mm) as (rs & mm' & Hrun & Hlen & _).
  by exists rs, (mkInmem free mm').
Qed.

(** X2. After any sequence of calls, the store holds for every key the TAT of
    the last [Set] on it unless a [Delete] on it came later, and otherwise
    what it held before; [Get] returns that TAT, or [ErrBucketNotFound] when
    there is none. *)
Theorem get_after_history_returns_last_write h ctx k s :
  unlocked s ->
  ∃ s',
    unlocked s' ∧
    (∀ k', m s' !! k' = last_write k' h (m s !! k')) ∧
    run (invoke_all h;; inmem_Get ctx k) s =
    Returns (match last_write k h (m s !! k) with
             | Some tat => (tat, None)
             | None => (zeroValue, Some ErrBucketNotFound)
             end) s'.
Proof.
  intros Hs. unlock_store s Hs.
  destruct (run_history h mm) as (rs & mm' & Hrun & _ & Hk).
  exists (mkInmem free mm'). split_and!; [done | exact Hk |].
  rewrite run_bind, Hrun, run_Get_unlocked. cbn. rewrite <- Hk.
  by destruct (mm' !! k).
Qed.


Lemma run_call_alone c mm :
  run (invoke c) (mkInmem free mm) =
  Returns (call_alone c mm).1 (mkInmem free (call_alone c mm).2).
Proof.
  rewrite run_invoke_unlocked.
  destruct c as [ctx k t | ctx k | ctx k]; cbn; [| destruct (mm !! k) |]; done.
Qed.

Lemma run_two_alone c1 c2 mm :
  run (invoke_all [c1; c2]) (mkInmem free mm) =
  Returns [(call_alone c1 mm).1; (call_alone c2 (call_alone c1 mm).2).1]
    (mkInmem free (call_alone c2 (call_alone c1 mm).2).2).
Proof. by rewrite run_invoke_all_cons, run_call_alone, run_invoke_all_cons, run_call_alone. Qed.

Lemma call_alone_commute c1 c2 mm :
  key_of c1 ≠ key_of c2 ->
  (call_alone c1 (call_alone c2 mm).2).1 = (call_alone c1 mm).1 ∧
  (call_alone c2 (call_alone c1 mm).2).1 = (call_alone c2 mm).1 ∧
  (call_alone c1 (call_alone c2 mm).2).2 = (call_alone c2 (call_alone c1 mm).2).2.
Proof.
  intros Hk.
  destruct c1 as [ctx1 k1 t1 | ctx1 k1 | ctx1 k1],
           c2 as [ctx2 k2 t2 | ctx2 k2 | ctx2 k2]; cbn in *;
    rewrite ?lookup_insert_ne, ?lookup_delete_ne by done;
    split_and!; try done.
  - by apply insert_insert_ne.
  - symmetry. by apply delete_insert_ne.
  - by apply delete_insert_ne.
  - apply delete_delete.
Qed.

(** X4. Two calls on different keys commute: in either order each returns what
    it returns when made alone on the same store, and the store they leave is
    the same. *)
Theorem calls_on_distinct_keys_commute c1 c2 s :
  key_of c1 ≠ key_of c2 ->
  unlocked s ->
  ∃ r1 r2 s1 s2 s',
    run (invoke c1) s = Returns r1 s1 ∧
    run (invoke c2) s = Returns r2 s2 ∧
    run (invoke_all [c1; c2]) s = Returns [r1; r2] s' ∧
    run (invoke_all [c2; c1]) s = Returns [r2; r1] s'.
Proof.
  intros Hk Hs. unlock_store s Hs.
  destruct (call_alone_commute c1 c2 mm Hk) as (H1 & H2 & Hm).
  eexists _, _, _, _, _. rewrite !run_two_alone, !run_call_alone.
  split_and!; [reflexivity .. | by rewrite H2 | by rewrite H1, Hm].
Qed.

(** X5. Every call is idempotent: making the same call twice in a row returns
    the same values twice and leaves the store that making it once leaves. *)
Theorem repeating_a_call_changes_nothing_more c s :
  unlocked s ->
  ∃ r s',
    run (invoke c) s = Returns r s' ∧
    run (invoke_all [c; c]) s = Returns [r; r] s'.
Proof.
  intros Hs. unlock_store s Hs. eexists _, _.
  rewrite run_two_alone, run_call_alone. split; [reflexivity |].
  destruct c as [ctx k t | ctx k | ctx k]; cbn.
  - by rewrite insert_insert_eq.
  - done.
  - by rewrite delete_delete_eq.
Qed.

(** *** Two goroutines *)

Lemma run_schedule_app {A} (sch1 sch2 : list nat) (σ : state Time A) :
  run_schedule (sch1 ++ sch2) σ = run_schedule sch1 σ ≫= run_schedule sch2.
Proof.
  revert σ. induction sch1 as [| i sch1 IH]; intros σ; [done |].
  cbn. destruct (sched i σ); [apply IH | done].
Qed.

Lemma run_schedule_steps {A} (sch : list nat) (σ σ' : state Time A) :
  run_schedule sch σ = Some σ' -> rtc step σ σ'.
Proof.
  revert σ. induction sch as [| i sch IH]; intros σ; cbn.
  - intros [= ->]. done.
  - destruct (sched i σ) as [σ1 |] eqn:Hi; [| done].
    intros Hrest. eapply rtc_l; [by exists i | by apply IH].
Qed.

(** A goroutine that finds the lock free and is scheduled three times in a
    row makes its call as if alone. *)
Lemma run_schedule_alone i c mm (ts : list (prog Time (retval Time))) :
  ts !! i = Some (invoke c) ->
  run_schedule [i; i; i] (Running (mkInmem free mm) ts) =
  Some (Running (mkInmem free (call_alone c mm).2)
          (<[i := Ret (call_alone c mm).1]> ts)).
Proof.
  intros Hi. pose proof (lookup_lt_Some _ _ _ Hi) as Hlen.
  destruct c as [ctx k t | ctx k | ctx k]; cbn; rewrite Hi; cbn;
    rewrite !list_lookup_insert_eq by (rewrite ?length_insert; done); cbn;
    try destruct (mm !! k); cbn;
    rewrite !list_lookup_insert_eq by (rewrite ?length_insert; done); cbn;
    by rewrite !list_insert_insert_eq.
Qed.

Lemma two_goroutines_finished c1 c2 mm σ s rs :
  rtc step (spawn (mkInmem free mm) [c1; c2]) σ ->
  finished σ s rs ->
  run (invoke_all [c1; c2]) (mkInmem free mm) = Returns rs s ∨
  ∃ r1 r2, rs = [r1; r2] ∧
           run (invoke_all [c2; c1]) (mkInmem free mm) = Returns [r2; r1] s.
Proof.
  intros [n Hn]%rtc_nsteps Hfin.
  apply reach_inv_nsteps in Hn as Hinv; [| done].
  destruct (reach_inv_finished _ _ _ _ _ _ Hinv Hfin)
    as (_ & Hlen & Hs & lg & Hperm & Hrun).
  destruct rs as [| r1 [| r2 [| ? ?]]]; try done. cbn [zip zip_with] in Hperm.
  symmetry in Hperm.
  apply Permutation_length_2_inv in Hperm as [-> | ->]; cbn in Hrun; eauto.
Qed.

(** X6. The outcomes of two concurrent calls are exactly the outcomes of the
    two calls made one after the other, in one order or the other: every
    interleaving ends in one of them, and each of them is the end of some
    interleaving. *)
Theorem two_concurrent_calls_take_one_of_two_orders c1 c2 s0 s rs :
  unlocked s0 ->
  (∃ σ, rtc step (spawn s0 [c1; c2]) σ ∧ finished σ s rs) ↔
  (run (invoke_all [c1; c2]) s0 = Returns rs s ∨
   ∃ r1 r2, rs = [r1; r2] ∧ run (invoke_all [c2; c1]) s0 = Returns [r2; r1] s).
Proof.
  intros Hs0. unlock_store s0 Hs0. split.
  - intros (σ & Hσ & Hfin). by eapply two_goroutines_finished.
  - intros [Hrun | (r1 & r2 & -> & Hrun)]; rewrite run_two_alone in Hrun.
    + injection Hrun as <- <-. eexists. split.
      * apply (run_schedule_steps ([0; 0; 0] ++ [1; 1; 1])).
        rewrite run_schedule_app. unfold spawn.
        rewrite (run_schedule_alone 0 c1) by done. cbn [mbind option_bind].
        by rewrite (run_schedule_alone 1 c2) by done.
      * eexists. split; [reflexivity |]. done.
    + injection Hrun as <- <- <-. eexists. split.
      * apply (run_schedule_steps ([1; 1; 1] ++ [0; 0; 0])).
        rewrite run_schedule_app. unfold spawn.
        rewrite (run_schedule_alone 1 c2) by done. cbn [mbind option_bind].
        by rewrite (run_schedule_alone 0 c1) by done.
      * eexists. split; [reflexivity |]. done.
Qed.

(** X7. A [Get(k)] that runs concurrently with a [Set(k, t)] returns either
    [t] or what the store held for [k] before (a TAT, or
    [ErrBucketNotFound]); the [Set] returns nil and the store ends up holding
    [t] for [k]. *)
Theorem concurrent_get_sees_old_or_new ctx ctx' k t s0 σ s rs :
  unlocked s0 ->
  rtc step (spawn s0 [CallSet ctx k t; CallGet ctx' k]) σ ->
  finished σ s rs ->
  m s = <[k := t]> (m s0) ∧
  ∃ got, rs = [RetErr None; got] ∧
    (got = RetTat t None ∨
     got = match m s0 !! k with
           | Some old => RetTat old None
           | None => RetTat zeroValue (Some ErrBucketNotFound)
           end).
Proof.
  intros Hs0 Hσ Hfin. unlock_store s0 Hs0.
  destruct (two_goroutines_finished _ _ _ _ _ _ Hσ Hfin)
    as [Hrun | (r1 & r2 & -> & Hrun)];
    rewrite run_two_alone in Hrun; cbn in Hrun.
  - rewrite lookup_insert_eq in Hrun. injection Hrun as <- <-. eauto.
  - injection Hrun as <- <- <-. eauto.
Qed.

(** X8. Two concurrent calls on different keys have one outcome only, whatever
    the interleaving: the results and the store of the two calls made one
    after the other. *)
Theorem concurrent_calls_on_distinct_keys_do_not_interfere c1 c2 s0 σ s rs :
  key_of c1 ≠ key_of c2 ->
  unlocked s0 ->
  rtc step (spawn s0 [c1; c2]) σ ->
  finished σ s rs ->
  run (invoke_all [c1; c2]) s0 = Returns rs s.
Proof.
  intros Hk Hs0 Hσ Hfin. unlock_store s0 Hs0.
  destruct (two_goroutines_finished _ _ _ _ _ _ Hσ Hfin)
    as [Hrun | (r1 & r2 & -> & Hrun)]; [done |].
  destruct (call_alone_commute c1 c2 mm Hk) as (H1 & H2 & Hm).
  rewrite run_two_alone in *. injection Hrun as <- <- <-.
  by rewrite H1, H2, Hm.
Qed.

(** X9. Two concurrent [Get]s can both be inside their critical section, the
    mutex counting two readers.  A [Set] or [Delete] cannot take its first
    step while a [Get] holds the lock, and no call can while a [Set] or
    [Delete] holds it. *)
Theorem readers_share_the_lock_writers_do_not ctx1 ctx2 k1 k2 c0 c s :
  unlocked s ->
  (∃ s' p q,
     run_schedule [0; 1] (spawn s [CallGet ctx1 k1; CallGet ctx2 k2]) =
       Some (Running s' [p; q]) ∧
     readers (mu s') = 2 ∧
     in_critical_section p = true ∧ in_critical_section q = true) ∧
  (is_Get c = false ->
     ∃ σ1, sched 0 (spawn s [CallGet ctx1 k1; c]) = Some σ1 ∧ sched 1 σ1 = None) ∧
  (is_Get c0 = false ->
     ∃ σ1, sched 0 (spawn s [c0; c]) = Some σ1 ∧ sched 1 σ1 = None).
Proof.
  intros Hs. unlock_store s Hs. split_and!.
  - eexists _, _, _. split; [reflexivity |]. done.
  - intros Hc. eexists. split; [reflexivity |]. by destruct c.
  - intros Hc0. destruct c0; try done; (eexists; split; [reflexivity |]); by destruct c.
Qed.

(** *** Any number of writers of one key *)

Lemma last_write_of_sets k (T : Time → Prop) h before :
  Forall (λ c, ∃ ctx t, c = CallSet ctx k t ∧ T t) h ->
  h ≠ [] ->
  ∃ t, T t ∧ last_write k h before = Some t.
Proof.
  intros Hh. revert before.
  induction Hh as [| c h (ctx & t & -> & Ht) Hh IH]; intros before Hne; [done |].
  cbn. rewrite bool_decide_eq_true_2 by done.
  destruct h as [| c' h]; [by exists t |]. by apply IH.
Qed.

Lemma run_history_writes h mm rs s :
  Forall (λ c, is_Get c = false) h ->
  run (invoke_all h) (mkInmem free mm) = Returns rs s ->
  Forall (λ r, r = RetErr None) rs.
Proof.
  intros Hh. revert mm rs. induction Hh as [| c h Hc _ IH]; intros mm rs.
  - by intros [= <- _].
  - rewrite run_invoke_all_cons, run_call_alone.
    destruct (run (invoke_all h) _) as [rs' s' | |] eqn:Hrun; [| done ..].
    intros [= <- <-]. constructor; [by destruct c | by eapply IH].
Qed.

(** X10. After any number (at least one) of concurrent [Set]s on one key, all
    of them have returned nil, the store holds for the key one of the TATs
    that were written, and a [Get] made afterwards returns it. *)
Theorem concurrent_sets_leave_one_written_value
    k (ws : list (context.Context * Time)) ctx s0 σ s rs :
  unlocked s0 ->
  ws ≠ [] ->
  rtc step (spawn s0 ((λ w, CallSet w.1 k w.2) <$> ws)) σ ->
  finished σ s rs ->
  Forall (λ r, r = RetErr None) rs ∧
  ∃ t, t ∈ ws.*2 ∧ m s !! k = Some t ∧
       run (inmem_Get ctx k) s = Returns (t, None) s.
Proof.
  intros Hs0 Hne [n Hn]%rtc_nsteps Hfin.
  apply reach_inv_nsteps in Hn as Hinv; [| done].
  destruct (reach_inv_finished _ _ _ _ _ _ Hinv Hfin)
    as (_ & Hlen & Hs & lg & Hperm & Hrun).
  set (cs := (λ w, CallSet w.1 k w.2) <$> ws) in *.
  assert (lg.*1 ≡ₚ cs) as Hcalls by (rewrite Hperm, fst_zip; [done | lia]).
  assert (lg.*2 ≡ₚ rs) as Hres by (rewrite Hperm, snd_zip; [done | lia]).
  unlock_store s0 Hs0. unlock_store s Hs. rename mm0 into mm'.
  split.
  - rewrite <- Hres. eapply run_history_writes; [| exact Hrun].
    rewrite Hcalls. unfold cs. by apply Forall_fmap, Forall_true.
  - destruct (run_history lg.*1 mm) as (rs' & mm'' & Hrun' & _ & Hk).
    rewrite Hrun in Hrun'. injection Hrun' as _ <-.
    destruct (last_write_of_sets k (λ t, t ∈ ws.*2) lg.*1 (mm !! k))
      as (t & Hin & Hlast).
    { rewrite Hcalls. unfold cs. apply Forall_fmap, Forall_forall.
      intros [ctx' t] Hw. exists ctx', t. split; [done |].
      apply list_elem_of_fmap. by exists (ctx', t). }
    { intros Hnil. rewrite Hnil in Hcalls. apply Permutation_nil_l in Hcalls.
      unfold cs in Hcalls. by destruct ws. }
    exists t. split; [done |].
    assert (mm' !! k = Some t) as Hmk by (by rewrite Hk).
    split; [done |]. by rewrite run_Get_unlocked, Hmk.
Qed.

End StoreProperties.

(** * Properties of the instrumentation decorator *)

Import measured_http.

Section InstrumentationProperties.

Context {float64 : Type} (Itoa : Z -> string) (Seconds : Z -> float64).

Lemma method_label_recognized r :
  Method r ∈ recognized_methods -> method_label r = Method r.
Proof.
  intros Hin. unfold method_label.
  destruct (_ || _)%bool eqn:Hor; [done |]. exfalso.
  repeat (apply orb_false_iff in Hor as [Hor ?]).
  rewrite String.eqb_neq in *.
  unfold recognized_methods in Hin. rewrite !elem_of_cons, elem_of_nil in Hin.
  destruct_or!; done.
Qed.

Lemma method_label_unknown r :
  Method r ∉ recognized_methods -> method_label r = "unknown".
Proof.
  intros Hnotin. unfold method_label.
  destruct (_ || _)%bool eqn:Hor; [| done]. exfalso. apply Hnotin.
  unfold recognized_methods. rewrite !elem_of_cons.
  repeat (apply orb_true_iff in Hor as [Hor | Hor]);
    apply String.eqb_eq in Hor; auto 10.
Qed.

(** C8. [ServeHTTP] records exactly one observation for the request, and its
    method label is the request's method when that is one of GET, HEAD, POST,
    PUT, PATCH, DELETE, CONNECT, OPTIONS, TRACE, and ["unknown"] otherwise. *)
Theorem recorded_method_is_recognized_or_unknown
    (h : MeasuredHandler float64) (w : list writerCall) (r : Request) :
  recognized_methods =
    ["GET"; "HEAD"; "POST"; "PUT"; "PATCH"; "DELETE"; "CONNECT"; "OPTIONS";
     "TRACE"] ∧
  ∃ labels seconds,
    stat (ServeHTTP Itoa Seconds h w r).1 = stat h ++ [(labels, seconds)] ∧
    method labels =
      if bool_decide (Method r ∈ recognized_methods) then Method r
      else "unknown".
Proof.
  split; [reflexivity |]. unfold ServeHTTP.
  destruct (serveMux h r) as [subHandler pattern]. cbn.
  eexists _, _. split; [reflexivity |]. cbn.
  case_bool_decide.
  - by apply method_label_recognized.
  - by apply method_label_unknown.
Qed.

(** ** The recorded status, the forwarded calls, the gauge *)

Implicit Types (sub : Handler).

(** The wrapper after a list of calls made on it. *)
Abbreviation after_calls := (foldl (fun w c =>
           match c with
           | CallWriteHeader c => WriteHeader w c
           | CallWrite body => Write w body
           end)).

Lemma forwarded_calls (cs : list writerCall) w :
  ResponseWriter (after_calls w cs) = ResponseWriter w ++ cs.
Proof.
  revert w. induction cs as [| c cs IH]; intros w; cbn [foldl].
  - by rewrite app_nil_r.
  - rewrite IH. destruct c; cbn; by rewrite <- app_assoc.
Qed.

Lemma code_after_writes (cs : list writerCall) w :
  forallb is_Write cs = true ->
  code (after_calls w cs) =
  if bool_decide (cs = []) then code w
  else if (code w =? 0)%Z then StatusOK else code w.
Proof.
  revert w. induction cs as [| c cs IH]; intros w Hcs; [done |].
  cbn in Hcs. apply andb_true_iff in Hcs as [Hc Hcs].
  destruct c as [| body]; [done |]. cbn [foldl].
  rewrite IH by done. rewrite (bool_decide_eq_false_2 (_ :: _ = [])) by done.
  cbn [Write code]. unfold StatusOK.
  destruct (code w =? 0)%Z eqn:Hz; case_bool_decide; try done.
  by rewrite Hz.
Qed.

Lemma code_after_header (pre post : list writerCall) c w :
  forallb is_Write post = true ->
  c ≠ 0%Z ->
  code (after_calls w (pre ++ CallWriteHeader c :: post)) = c.
Proof.
  intros Hpost Hc. rewrite foldl_app. cbn [foldl].
  rewrite code_after_writes by done. cbn.
  apply Z.eqb_neq in Hc. rewrite Hc. by case_bool_decide.
Qed.

(** X11. The wrapper is transparent to the wrapped writer: everything the
    handler calls on it reaches the wrapped writer, in the same order and with
    the same arguments, and nothing else does. *)
Theorem handler_calls_are_forwarded_in_order h (w : list writerCall) r :
  ResponseWriter (ServeHTTP Itoa Seconds h w r).2 =
  w ++ calls (serveMux h r).1 r.
Proof.
  unfold ServeHTTP. destruct (serveMux h r) as [sub pattern]. cbn.
  unfold Handler_ServeHTTP. by rewrite forwarded_calls.
Qed.

(** X12. When the handler calls [WriteHeader] with a non-zero status and
    afterwards only writes bodies, that status is the recorded one, whatever
    the handler did before: the last [WriteHeader] wins, and [Write] does not
    change a status that is set. *)
Theorem last_explicit_status_is_recorded h (w : list writerCall) r pre c post :
  calls (serveMux h r).1 r = pre ++ CallWriteHeader c :: post ->
  forallb is_Write post = true ->
  c ≠ 0%Z ->
  code (ServeHTTP Itoa Seconds h w r).2 = c ∧
  ∃ labels seconds,
    stat (ServeHTTP Itoa Seconds h w r).1 = stat h ++ [(labels, seconds)] ∧
    code_label labels = Itoa c.
Proof.
  intros Hcalls Hpost Hc. unfold ServeHTTP.
  destruct (serveMux h r) as [sub pattern]. cbn in *.
  unfold Handler_ServeHTTP. rewrite Hcalls, code_after_header by done.
  split; [done |]. by eexists _, _.
Qed.

(** X13. When the handler never calls [WriteHeader], the recorded code label
    is that of 200 if it wrote a body, and that of 0 if it did not call the
    writer at all. *)
Theorem status_without_explicit_header h (w : list writerCall) r :
  forallb is_Write (calls (serveMux h r).1 r) = true ->
  ∃ labels seconds,
    stat (ServeHTTP Itoa Seconds h w r).1 = stat h ++ [(labels, seconds)] ∧
    code_label labels =
      if bool_decide (calls (serveMux h r).1 r = []) then Itoa 0
      else Itoa StatusOK.
Proof.
  intros Hcalls. unfold ServeHTTP.
  destruct (serveMux h r) as [sub pattern]. cbn in *.
  unfold Handler_ServeHTTP. rewrite code_after_writes by done. cbn.
  eexists _, _. split; [done |]. cbn. by case_bool_decide.
Qed.

(** X14. [ServeHTTP] leaves the in-flight gauge of the request's endpoint at
    the value it had before the request (0 when it had none), and does not
    touch the gauge of any other endpoint. *)
Theorem in_flight_gauge_is_balanced h (w : list writerCall) r :
  let h' := (ServeHTTP Itoa Seconds h w r).1 in
  let pattern := (serveMux h r).2 in
  inFlightRequestsGauge h' !! pattern =
    Some (default 0%Z (inFlightRequestsGauge h !! pattern)) ∧
  ∀ endpoint, endpoint ≠ pattern ->
    inFlightRequestsGauge h' !! endpoint = inFlightRequestsGauge h !! endpoint.
Proof.
  unfold ServeHTTP. destruct (serveMux h r) as [sub pattern]. cbn.
  unfold Inc, Dec. split.
  - rewrite !lookup_insert_eq. cbn. f_equal. lia.
  - intros endpoint Hne. by rewrite !lookup_insert_ne.
Qed.

(** X15. If every observation recorded so far has one of the ten method
    labels (the nine recognized methods and ["unknown"]), so has every
    observation after [ServeHTTP]: requests cannot add a method label. *)
Theorem method_labels_stay_bounded h (w : list writerCall) r :
  Forall (λ o, method o.1 ∈ recognized_methods ++ ["unknown"]) (stat h) ->
  Forall (λ o, method o.1 ∈ recognized_methods ++ ["unknown"])
    (stat (ServeHTTP Itoa Seconds h w r).1) ∧
  length (recognized_methods ++ ["unknown"]) = 10.
Proof.
  intros Hh. split; [| reflexivity].
  remember (recognized_methods ++ ["unknown"]) as L eqn:HL.
  unfold ServeHTTP. destruct (serveMux h r) as [sub pattern]. cbn.
  apply Forall_app. split; [done |]. apply Forall_singleton. cbn. subst L.
  apply elem_of_app.
  destruct (decide (Method r ∈ recognized_methods)) as [Hin | Hnotin].
  - rewrite method_label_recognized by done. by left.
  - rewrite method_label_unknown by done. right. apply list_elem_of_here.
Qed.

End InstrumentationProperties.

(** * The claims at concrete inputs *)

Section StoreExamples.

Abbreviation bg := context.Background.
Abbreviation free := (mkRWMutex false 0).

(** The scenario of the specification: not found, set, found, deleted, not
    found. *)
Example scenario_alice :
  run (r1 ← inmem_Get bg alice; inmem_Set bg alice 60%Z;;
       r2 ← inmem_Get bg alice; inmem_Delete bg alice;;
       r3 ← inmem_Get bg alice; mret [r1; r2; r3]) newInmem =
  Returns [(0%Z, Some ErrBucketNotFound); (60%Z, None);
           (0%Z, Some ErrBucketNotFound)] newInmem.
Proof. reflexivity. Qed.

(** A caller that finds the lock held does not return. *)
Example set_blocks_while_locked :
  run (inmem_Set bg alice 60%Z) (mkInmem (mkRWMutex false 1) ∅) = Blocks.
Proof. reflexivity. Qed.

(** Two schedules of [two_sets]: the goroutine that takes the lock last wins. *)
Example schedule_first_then_second :
  run_schedule [0; 0; 0; 1; 1; 1] (spawn newInmem two_sets) =
  Some (Running (mkInmem free {[alice := 120%Z]})
          [Ret (RetErr None); Ret (RetErr None)]).
Proof. reflexivity. Qed.

Example schedule_second_then_first :
  run_schedule [1; 0; 1; 1; 0; 0; 0] (spawn newInmem two_sets) = None ∧
  run_schedule [1; 1; 1; 0; 0; 0] (spawn newInmem two_sets) =
  Some (Running (mkInmem free {[alice := 60%Z]})
          [Ret (RetErr None); Ret (RetErr None)]).
Proof. split; reflexivity. Qed.

(** Readers share the lock: two [Get]s may both be past [RLock]. *)
Example schedule_two_readers :
  run_schedule [0; 1; 0; 1; 1; 0]
    (spawn store1 [CallGet bg bob; CallGet bg alice]) =
  Some (Running store1
          [Ret (RetTat 30%Z None);
           Ret (RetTat 0%Z (Some ErrBucketNotFound))]).
Proof. reflexivity. Qed.

Lemma set_set_get_last_write_wins_witness :
  unlocked store1 ∧
  run (inmem_Set bg bob 60%Z;; inmem_Set bg bob 120%Z;; inmem_Get bg bob) store1 =
  Returns (120%Z, None) (mkInmem (mu store1) (<[bob := 120%Z]> (m store1))).
Proof.
  split; [reflexivity |].
  apply (set_set_get_last_write_wins bg bg bg bob 60%Z 120%Z store1).
  reflexivity.
Defined.

Lemma get_absent_key_not_found_witness :
  never_sets alice [CallSet bg bob 30%Z; CallGet bg alice] = true ∧
  (∃ s', run (invoke_all [CallSet bg bob 30%Z; CallGet bg alice];;
              inmem_Get bg alice) newInmem =
         Returns (0%Z, Some ErrBucketNotFound) s') ∧
  (∃ s', run (invoke_all [CallSet bg alice 60%Z];; inmem_Delete bg alice;;
              invoke_all [CallSet bg bob 30%Z; CallGet bg alice];;
              inmem_Get bg alice) newInmem =
         Returns (0%Z, Some ErrBucketNotFound) s').
Proof.
  split; [reflexivity |].
  apply (get_absent_key_not_found [CallSet bg alice 60%Z]
           [CallSet bg bob 30%Z; CallGet bg alice] bg bg alice).
  reflexivity.
Defined.

Lemma set_delete_get_not_found_witness :
  unlocked store1 ∧
  run (inmem_Set bg bob 60%Z;; inmem_Delete bg bob;; inmem_Get bg bob) store1 =
  Returns (0%Z, Some ErrBucketNotFound) (mkInmem (mu store1) (delete bob (m store1))).
Proof.
  split; [reflexivity |].
  apply (set_delete_get_not_found bg bg bg bob 60%Z store1). reflexivity.
Defined.

Lemma delete_absent_key_succeeds_witness :
  unlocked store1 ∧ m store1 !! alice = None ∧
  run (inmem_Delete bg alice) store1 = Returns None store1.
Proof.
  split; [reflexivity |]. split; [reflexivity |].
  apply (delete_absent_key_succeeds bg alice store1); reflexivity.
Defined.

Lemma get_failure_is_the_sentinel_witness :
  unlocked store1 ∧ m store1 !! alice = None ∧
  run (inmem_Get bg alice) store1 =
    Returns (0%Z, Some ErrBucketNotFound) store1 ∧
  (ErrBucketNotFound = ErrBucketNotFound ∧ m store1 !! alice = None).
Proof.
  destruct (get_failure_is_the_sentinel bg alice store1) as (Hfail & Habsent & _).
  split; [reflexivity |]. split; [reflexivity |]. split.
  - apply Habsent; reflexivity.
  - apply (Hfail 0%Z ErrBucketNotFound store1). reflexivity.
Defined.

(** C6 as stated fails: with a cancelled or expired context every method runs
    as usual and returns a nil error. *)
Lemma cancelled_context_does_not_stop_a_call :
  context.Err context.WithCancelled = Some context.Canceled ∧
  context.Err context.WithExpiredDeadline = Some context.DeadlineExceeded ∧
  run (inmem_Set context.WithCancelled alice 60%Z) newInmem =
    Returns None (mkInmem free {[alice := 60%Z]}) ∧
  run (inmem_Get context.WithExpiredDeadline alice)
      (mkInmem free {[alice := 60%Z]}) =
    Returns (60%Z, None) (mkInmem free {[alice := 60%Z]}) ∧
  run (inmem_Delete context.WithCancelled alice)
      (mkInmem free {[alice := 60%Z]}) =
    Returns None newInmem ∧
  ¬ (∀ ctx k (t : Z) s,
       unlocked s -> context.Err ctx ≠ None ->
       ∃ e s', run (inmem_Set ctx k t) s = Returns (Some e) s').
Proof.
  split_and!; try reflexivity.
  intros Hclaim.
  destruct (Hclaim context.WithCancelled alice 60%Z newInmem)
    as (e & s' & Hrun); [reflexivity | discriminate |].
  discriminate Hrun.
Defined.

Lemma concurrent_calls_are_linearizable_witness :
  unlocked (newInmem (Time := Z)) ∧
  ∀ σ s rs,
    rtc step (spawn newInmem two_sets) σ ->
    finished σ s rs ->
    rs = [RetErr None; RetErr None] ∧
    (run (inmem_Get bg alice) s = Returns (60%Z, None) s ∨
     run (inmem_Get bg alice) s = Returns (120%Z, None) s).
Proof.
  split; [reflexivity |].
  apply (concurrent_calls_are_linearizable bg context.WithCancelled bg alice
           60%Z 120%Z [] newInmem).
  reflexivity.
Defined.

Lemma inmem_has_no_transient_failure_witness :
  unlocked store1 ∧
  (∃ s', run (inmem_Set bg alice 60%Z) store1 = Returns None s') ∧
  (∃ s', run (inmem_Delete bg alice) store1 = Returns None s') ∧
  (∃ r s', run (inmem_Get bg alice) store1 = Returns r s') ∧
  (None : option error) = None ∧
  ErrBucketNotFound = ErrBucketNotFound.
Proof.
  destruct (inmem_has_no_transient_failure bg alice 60%Z store1)
    as (Hset & Hdel & Hget & _ & Hret).
  split; [reflexivity |].
  destruct (Hret eq_refl) as (Hs & Hd & Hg). split_and!; [done .. | |].
  - apply (Hset None (mkInmem free (<[alice := 60%Z]> (m store1)))). reflexivity.
  - apply (Hget 0%Z ErrBucketNotFound store1). reflexivity.
Defined.

Lemma operations_touch_only_their_key_witness :
  alice ≠ bob ∧ unlocked store1 ∧
  (∃ s', run (inmem_Set bg alice 60%Z) store1 = Returns None s' ∧
         m s' !! bob = m store1 !! bob) ∧
  (∃ s', run (inmem_Delete bg alice) store1 = Returns None s' ∧
         m s' !! bob = m store1 !! bob) ∧
  (∃ r, run (inmem_Get bg alice) store1 = Returns r store1).
Proof.
  split; [discriminate |]. split; [reflexivity |].
  apply (operations_touch_only_their_key bg alice bob 60%Z store1).
  - discriminate.
  - reflexivity.
Defined.

End StoreExamples.

Section StoreExtrasExamples.

Abbreviation bg := context.Background.
Abbreviation free := (mkRWMutex false 0).

Lemma history_never_blocks_and_releases_lock_witness :
  unlocked store1 ∧
  ∃ rs s',
    run (invoke_all [CallGet bg alice; CallSet bg alice 60%Z; CallDelete bg bob])
        store1 = Returns rs s' ∧
    unlocked s' ∧ length rs = 3.
Proof.
  split; [reflexivity |].
  apply (history_never_blocks_and_releases_lock
           [CallGet bg alice; CallSet bg alice 60%Z; CallDelete bg bob] store1).
  reflexivity.
Defined.

Lemma get_after_history_returns_last_write_witness :
  unlocked store1 ∧
  last_write bob [CallSet bg bob 60%Z; CallDelete bg bob; CallSet bg bob 90%Z;
                  CallSet bg alice 5%Z] (m store1 !! bob) = Some 90%Z ∧
  ∃ s',
    unlocked s' ∧
    (∀ k', m s' !! k' =
           last_write k' [CallSet bg bob 60%Z; CallDelete bg bob;
                          CallSet bg bob 90%Z; CallSet bg alice 5%Z]
             (m store1 !! k')) ∧
    run (invoke_all [CallSet bg bob 60%Z; CallDelete bg bob;
                     CallSet bg bob 90%Z; CallSet bg alice 5%Z];;
         inmem_Get bg bob) store1 =
    Returns (match last_write bob [CallSet bg bob 60%Z; CallDelete bg bob;
                                   CallSet bg bob 90%Z; CallSet bg alice 5%Z]
                     (m store1 !! bob) with
             | Some tat => (tat, None)
             | None => (0%Z, Some ErrBucketNotFound)
             end) s'.
Proof.
  split; [reflexivity |]. split; [reflexivity |].
  apply (get_after_history_returns_last_write
           [CallSet bg bob 60%Z; CallDelete bg bob; CallSet bg bob 90%Z;
            CallSet bg alice 5%Z] bg bob store1).
  reflexivity.
Defined.


Lemma calls_on_distinct_keys_commute_witness :
  key_of (CallSet bg alice 60%Z) ≠ key_of (CallGet (Time := Z) bg bob) ∧
  unlocked store1 ∧
  ∃ r1 r2 s1 s2 s',
    run (invoke (CallSet bg alice 60%Z)) store1 = Returns r1 s1 ∧
    run (invoke (CallGet bg bob)) store1 = Returns r2 s2 ∧
    run (invoke_all [CallSet bg alice 60%Z; CallGet bg bob]) store1 =
      Returns [r1; r2] s' ∧
    run (invoke_all [CallGet bg bob; CallSet bg alice 60%Z]) store1 =
      Returns [r2; r1] s'.
Proof.
  split; [discriminate |]. split; [reflexivity |].
  apply (calls_on_distinct_keys_commute (CallSet bg alice 60%Z)
           (CallGet bg bob) store1).
  - discriminate.
  - reflexivity.
Defined.

Lemma repeating_a_call_changes_nothing_more_witness :
  unlocked store1 ∧
  ∃ r s',
    run (invoke (CallDelete bg bob)) store1 = Returns r s' ∧
    run (invoke_all [CallDelete bg bob; CallDelete bg bob]) store1 =
      Returns [r; r] s'.
Proof.
  split; [reflexivity |].
  apply (repeating_a_call_changes_nothing_more (CallDelete bg bob) store1).
  reflexivity.
Defined.

Lemma two_concurrent_calls_take_one_of_two_orders_witness :
  unlocked store1 ∧
  ∃ σ, rtc step (spawn store1 writer_and_reader) σ ∧
       finished σ (mkInmem free {[bob := 90%Z]})
         [RetErr None; RetTat 30%Z None].
Proof.
  split; [reflexivity |].
  apply (two_concurrent_calls_take_one_of_two_orders
           (CallSet bg bob 90%Z) (CallGet bg bob) store1
           (mkInmem free {[bob := 90%Z]}) [RetErr None; RetTat 30%Z None]).
  - reflexivity.
  - right. exists (RetErr None), (RetTat 30%Z None). split; reflexivity.
Defined.

Lemma concurrent_get_sees_old_or_new_witness :
  unlocked store1 ∧
  rtc step (spawn store1 writer_and_reader)
    (Running (mkInmem free {[bob := 90%Z]})
       [Ret (RetErr None); Ret (RetTat 30%Z None)]) ∧
  m (mkInmem free ({[bob := 90%Z]} : gmap string Z)) =
    <[bob := 90%Z]> (m store1) ∧
  ∃ got, [RetErr None; RetTat 30%Z None] = [RetErr None; got] ∧
    (got = RetTat 90%Z None ∨
     got = match m store1 !! bob with
           | Some old => RetTat old None
           | None => RetTat 0%Z (Some ErrBucketNotFound)
           end).
Proof.
  assert (rtc step (spawn store1 writer_and_reader)
            (Running (mkInmem free {[bob := 90%Z]})
               [Ret (RetErr None); Ret (RetTat 30%Z None)])) as Hsteps.
  { apply (run_schedule_steps [1; 1; 1; 0; 0; 0]). reflexivity. }
  split; [reflexivity |]. split; [exact Hsteps |].
  apply (concurrent_get_sees_old_or_new bg bg bob 90%Z store1 _ _ _
           eq_refl Hsteps).
  eexists. split; reflexivity.
Defined.

Lemma concurrent_calls_on_distinct_keys_do_not_interfere_witness :
  key_of (CallSet bg alice 60%Z) ≠ key_of (CallDelete (Time := Z) bg bob) ∧
  unlocked store1 ∧
  rtc step (spawn store1 set_alice_delete_bob)
    (Running (mkInmem free {[alice := 60%Z]})
       [Ret (RetErr None); Ret (RetErr None)]) ∧
  run (invoke_all set_alice_delete_bob) store1 =
    Returns [RetErr None; RetErr None] (mkInmem free {[alice := 60%Z]}).
Proof.
  assert (rtc step (spawn store1 set_alice_delete_bob)
            (Running (mkInmem free {[alice := 60%Z]})
               [Ret (RetErr None); Ret (RetErr None)])) as Hsteps.
  { apply (run_schedule_steps [1; 1; 1; 0; 0; 0]). reflexivity. }
  split; [discriminate |]. split; [reflexivity |]. split; [exact Hsteps |].
  apply (concurrent_calls_on_distinct_keys_do_not_interfere
           (CallSet bg alice 60%Z) (CallDelete bg bob) store1 _ _ _
           ltac:(discriminate) eq_refl Hsteps).
  eexists. split; reflexivity.
Defined.

Lemma readers_share_the_lock_writers_do_not_witness :
  unlocked store1 ∧
  (∃ σ1, sched 0 (spawn store1 [CallGet bg bob; CallSet bg bob 90%Z]) = Some σ1 ∧
         sched 1 σ1 = None) ∧
  (∃ σ1, sched 0 (spawn store1 [CallDelete bg bob; CallGet bg bob]) = Some σ1 ∧
         sched 1 σ1 = None).
Proof.
  destruct (readers_share_the_lock_writers_do_not bg bg bob bob
              (CallDelete bg bob) (CallSet bg bob 90%Z) store1 eq_refl)
    as (_ & Hreader & _).
  destruct (readers_share_the_lock_writers_do_not bg bg bob bob
              (CallDelete bg bob) (CallGet bg bob) store1 eq_refl)
    as (_ & _ & Hwriter).
  split; [reflexivity |]. split; [apply Hreader | apply Hwriter]; reflexivity.
Defined.

Lemma concurrent_sets_leave_one_written_value_witness :
  unlocked store1 ∧ three_writers ≠ [] ∧
  rtc step (spawn store1 ((λ w, CallSet w.1 alice w.2) <$> three_writers))
    (Running (mkInmem free {[alice := 60%Z; bob := 30%Z]})
       [Ret (RetErr None); Ret (RetErr None); Ret (RetErr None)]) ∧
  Forall (λ r, r = RetErr None)
    [RetErr (Time := Z) None; RetErr None; RetErr None] ∧
  ∃ t, t ∈ three_writers.*2 ∧
       m (mkInmem free ({[alice := 60%Z; bob := 30%Z]} : gmap string Z)) !! alice
         = Some t ∧
       run (inmem_Get bg alice) (mkInmem free {[alice := 60%Z; bob := 30%Z]}) =
         Returns (t, None) (mkInmem free {[alice := 60%Z; bob := 30%Z]}).
Proof.
  assert (rtc step (spawn store1 ((λ w, CallSet w.1 alice w.2) <$> three_writers))
            (Running (mkInmem free {[alice := 60%Z; bob := 30%Z]})
               [Ret (RetErr None); Ret (RetErr None); Ret (RetErr None)]))
    as Hsteps.
  { apply (run_schedule_steps [2; 2; 2; 1; 1; 1; 0; 0; 0]). reflexivity. }
  split; [reflexivity |]. split; [discriminate |]. split; [exact Hsteps |].
  apply (concurrent_sets_leave_one_written_value alice three_writers bg store1
           _ _ _ eq_refl ltac:(discriminate) Hsteps).
  eexists. split; reflexivity.
Defined.

End StoreExtrasExamples.

Section InstrumentationExamples.

Abbreviation root := (mkRequest "BREW" "/").
Abbreviation directory := (mkRequest "GET" "/directory").
Abbreviation health := (mkRequest "HEAD" "/health").

(** One request served end to end: an unknown method, a handler that first
    says 200 and then 404.  The recorded status is the last one. *)
Example serve_root :
  ServeHTTP decimal id measured0 [] root =
  (mkMeasured example_mux 1500%Z
     [(mkLabels "/" "unknown" "404", 1500%Z)] {["/" := 0%Z]},
   mkWriter [CallWriteHeader 200; CallWrite []; CallWriteHeader 404;
             CallWrite []] 404%Z).
Proof. reflexivity. Qed.

Lemma last_explicit_status_is_recorded_witness :
  calls (serveMux measured0 root).1 root =
    [CallWriteHeader 200; CallWrite []] ++ CallWriteHeader 404 :: [CallWrite []] ∧
  forallb is_Write [CallWrite []] = true ∧
  404%Z ≠ 0%Z ∧
  code (ServeHTTP decimal id measured0 [] root).2 = 404%Z ∧
  ∃ labels seconds,
    stat (ServeHTTP decimal id measured0 [] root).1 =
      stat measured0 ++ [(labels, seconds)] ∧
    code_label labels = decimal 404.
Proof.
  split; [reflexivity |]. split; [reflexivity |]. split; [discriminate |].
  apply (last_explicit_status_is_recorded decimal id measured0 [] root
           [CallWriteHeader 200; CallWrite []] 404%Z [CallWrite []]).
  - reflexivity.
  - reflexivity.
  - discriminate.
Defined.

Lemma status_without_explicit_header_witness :
  forallb is_Write (calls (serveMux measured0 directory).1 directory) = true ∧
  forallb is_Write (calls (serveMux measured0 health).1 health) = true ∧
  (∃ labels seconds,
     stat (ServeHTTP decimal id measured0 [] directory).1 =
       stat measured0 ++ [(labels, seconds)] ∧
     code_label labels = "200") ∧
  (∃ labels seconds,
     stat (ServeHTTP decimal id measured0 [] health).1 =
       stat measured0 ++ [(labels, seconds)] ∧
     code_label labels = "0").
Proof.
  split; [reflexivity |]. split; [reflexivity |]. split.
  - apply (status_without_explicit_header decimal id measured0 [] directory).
    reflexivity.
  - apply (status_without_explicit_header decimal id measured0 [] health).
    reflexivity.
Defined.

Lemma in_flight_gauge_is_balanced_witness :
  inFlightRequestsGauge (ServeHTTP decimal id measured0 [] root).1 !! "/" =
    Some 0%Z ∧
  inFlightRequestsGauge (ServeHTTP decimal id measured0 [] root).1 !! "/health" =
    inFlightRequestsGauge measured0 !! "/health".
Proof.
  destruct (in_flight_gauge_is_balanced decimal id measured0 [] root)
    as [Hsame Hother].
  split; [exact Hsame |]. apply Hother. discriminate.
Defined.

Lemma method_labels_stay_bounded_witness :
  Forall (λ o : Labels * Z, method o.1 ∈ recognized_methods ++ ["unknown"])
    (stat measured0) ∧
  Forall (λ o : Labels * Z, method o.1 ∈ recognized_methods ++ ["unknown"])
    (stat (ServeHTTP decimal id measured0 [] root).1) ∧
  length (recognized_methods ++ ["unknown"]) = 10.
Proof.
  split; [apply Forall_nil_2 |].
  apply (method_labels_stay_bounded decimal id measured0 [] root).
  apply Forall_nil_2.
Defined.

End InstrumentationExamples.
